(** * M3U playlist tools: the URL sorter and the header tool

    A shallow embedding of [scripts/url_sorter.py] and of
    [scripts/m3u_header_tool.py], and the properties of the two programs.

    Python text is a sequence of Unicode code points: a character is its
    code point, a [str] is a list of them.  Python integers are unbounded:
    scores are in [Z].  The library functions the scripts call ([str.strip],
    [in], [str.split], [sorted], [re.sub], ...) are written out below with
    the behaviour CPython documents for them. *)

From Stdlib Require Import List Bool NArith ZArith Lia String Ascii.
From Stdlib Require Import Permutation Sorted.
Import ListNotations.

(** ** Python strings *)

Module Py.

Definition char := N.
Definition str := list char.

(** A literal of the source, as code points (ASCII literals only). *)
Definition lit (s : string) : str := map N_of_ascii (list_ascii_of_string s).
Arguments lit s%_string.

Definition LF : char := 10%N.
Definition CR : char := 13%N.
Definition COMMA : char := 44%N.
Definition QUOTE : char := 34%N.
Definition BACKSLASH : char := 92%N.

Local Open Scope N_scope.

(** [str.isspace] on one character: the set [str.strip] removes. *)
Definition isspace (c : char) : bool :=
  ((9 <=? c) && (c <=? 13)) || ((28 <=? c) && (c <=? 32))
  || (c =? 133) || (c =? 160) || (c =? 5760)
  || ((8192 <=? c) && (c <=? 8202))
  || (c =? 8232) || (c =? 8233) || (c =? 8239) || (c =? 8287) || (c =? 12288).

(** The line boundaries of [str.splitlines]. *)
Definition is_linebreak (c : char) : bool :=
  ((10 <=? c) && (c <=? 13)) || ((28 <=? c) && (c <=? 30))
  || (c =? 133) || (c =? 8232) || (c =? 8233).

(** Truth value of a string: non-empty. *)
Definition truthy (s : str) : bool :=
  match s with [] => false | _ :: _ => true end.

Fixpoint lstrip (s : str) : str :=
  match s with
  | [] => []
  | c :: t => if isspace c then lstrip t else s
  end.

Fixpoint rstrip (s : str) : str :=
  match s with
  | [] => []
  | c :: t =>
      match rstrip t with
      | [] => if isspace c then [] else [c]
      | r => c :: r
      end
  end.

Definition strip (s : str) : str := rstrip (lstrip s).

(** [s.startswith(p)] *)
Fixpoint startswith (s p : str) {struct p} : bool :=
  match p with
  | [] => true
  | a :: p' =>
      match s with
      | [] => false
      | b :: s' => (b =? a) && startswith s' p'
      end
  end.

(** [x in s] *)
Fixpoint str_in (x s : str) {struct s} : bool :=
  startswith s x ||
  match s with
  | [] => false
  | _ :: t => str_in x t
  end.

(** [s.split(sep)] for a one-character separator. *)
Fixpoint str_split (sep : char) (s : str) : list str :=
  match s with
  | [] => [[]]
  | c :: t =>
      if c =? sep then [] :: str_split sep t
      else match str_split sep t with
           | [] => [[c]]
           | p :: ps => (c :: p) :: ps
           end
  end.

(** [s.rsplit(sep, 1)] for a one-character separator: the text before
    the last separator and the text after it, or [s] alone. *)
Fixpoint rsplit1 (sep : char) (s : str) : list str :=
  match s with
  | [] => [[]]
  | c :: t =>
      match rsplit1 sep t with
      | [a; b] => [c :: a; b]
      | _ => if c =? sep then [[]; t] else [s]
      end
  end.

(** [sep.join(parts)] *)
Fixpoint join (sep : str) (parts : list str) : str :=
  match parts with
  | [] => []
  | [p] => p
  | p :: rest => p ++ sep ++ join sep rest
  end.

(** Universal newlines of a text-mode file: CR LF and a lone CR read as LF. *)
Fixpoint translate_newlines (s : str) : str :=
  match s with
  | [] => []
  | c :: t =>
      if c =? CR then
        LF :: match t with
              | c' :: t' => if c' =? LF then translate_newlines t'
                            else translate_newlines t
              | [] => []
              end
      else c :: translate_newlines t
  end.

(** Lines of a text, each with its terminating LF (the last may lack it). *)
Fixpoint keepends (s : str) : list str :=
  match s with
  | [] => []
  | c :: t =>
      if c =? LF then [c] :: keepends t
      else match keepends t with
           | [] => [[c]]
           | l :: ls => (c :: l) :: ls
           end
  end.

(** [f.readlines()] on a file opened in text mode, given the decoded text. *)
Definition readlines (content : str) : list str :=
  keepends (translate_newlines content).

(** [s.splitlines()] *)
Fixpoint splitlines (s : str) : list str :=
  match s with
  | [] => []
  | c :: t =>
      if is_linebreak c then
        [] :: match t with
              | c' :: t' => if (c =? CR) && (c' =? LF) then splitlines t'
                            else splitlines t
              | [] => []
              end
      else match splitlines t with
           | [] => [[c]]
           | l :: ls => (c :: l) :: ls
           end
  end.

(** [sorted(l, key=key)]: the stable sort, as insertion from the right;
    an element goes before the first one whose key is not smaller. *)
Section Sorted.
Variable A : Type.
Variable key : A -> Z.

Fixpoint insert_by (x : A) (l : list A) : list A :=
  match l with
  | [] => [x]
  | y :: t => if (key x <=? key y)%Z then x :: l else y :: insert_by x t
  end.

Definition sorted (l : list A) : list A := fold_right insert_by [] l.
End Sorted.

Arguments insert_by {A} key x l.
Arguments sorted {A} key l.

End Py.

(** ** The two regular expressions of the scripts

    Both patterns have one shape: an attribute key, an opening quote, any
    run of characters other than a quote, a closing quote (the pattern on
    tvg-name in the sorter, the pattern on x-tvg-url, with the value as
    its one group, in the header tool).  A match at a position exists
    exactly when the text there starts with the key and a quote follows
    later; the value is the text up to the first such quote. *)

Module Re.
Import Py.
Local Open Scope N_scope.

(** A parsed replacement template: literal characters and group
    references ([re._parser.parse_template]). *)
Inductive piece : Type :=
| Lit (c : char)
| Group (index : nat).

Definition is_digit (c : char) : bool := (48 <=? c) && (c <=? 57).
Definition is_octdigit (c : char) : bool := (48 <=? c) && (c <=? 55).
Definition is_ascii_letter (c : char) : bool :=
  ((65 <=? c) && (c <=? 90)) || ((97 <=? c) && (c <=? 122)).
Definition digit_val (c : char) : N := c - 48.

(** The table [ESCAPES] for the character after a backslash. *)
Definition escape_char (c : char) : option char :=
  if c =? 97 then Some 7          (* \a *)
  else if c =? 98 then Some 8     (* \b *)
  else if c =? 102 then Some 12   (* \f *)
  else if c =? 110 then Some 10   (* \n *)
  else if c =? 114 then Some 13   (* \r *)
  else if c =? 116 then Some 9    (* \t *)
  else if c =? 118 then Some 11   (* \v *)
  else if c =? 92 then Some 92    (* \\ *)
  else None.

(** [addgroup]: a reference beyond the pattern's groups is an error. *)
Definition addgroup (groups : nat) (index : N) (used : nat)
  : option (list piece * nat) :=
  if (N.of_nat groups <? index) then None
  else Some ([Group (N.to_nat index)], used).

Fixpoint take_until (stop : char) (s : str) : option str :=
  match s with
  | [] => None
  | c :: t => if c =? stop then Some []
              else option_map (cons c) (take_until stop t)
  end.

Definition decimal_value (name : str) : N :=
  fold_left (fun acc d => 10 * acc + digit_val d) name 0.

(** One escape of a template: [e] is the character after the backslash,
    [r] the text after [e].  The result is the pieces it stands for and
    how many characters after the backslash it takes, or [None] where
    Python raises.  The patterns here have no named group, so a name in
    [\g<name>] that is not an ASCII decimal number always raises (CPython
    3.12; earlier versions still accepted forms such as [+1] with a
    deprecation warning). *)
Definition template_escape (groups : nat) (e : char) (r : str)
  : option (list piece * nat) :=
  if e =? 103 then                                   (* \g<number> *)
    match r with
    | c :: r' =>
        if c =? 60 then
          match take_until 62 r' with
          | Some name =>
              if truthy name && forallb is_digit name
              then addgroup groups (decimal_value name) (3 + List.length name)
              else None
          | None => None
          end
        else None
    | [] => None
    end
  else if e =? 48 then                               (* \0, \0o, \0oo *)
    match r with
    | d1 :: r' =>
        if is_octdigit d1 then
          match r' with
          | d2 :: _ =>
              if is_octdigit d2
              then Some ([Lit (8 * digit_val d1 + digit_val d2)], 3%nat)
              else Some ([Lit (digit_val d1)], 2%nat)
          | [] => Some ([Lit (digit_val d1)], 2%nat)
          end
        else Some ([Lit 0], 1%nat)
    | [] => Some ([Lit 0], 1%nat)
    end
  else if is_digit e then                            (* \N, \NN, \ooo *)
    match r with
    | d2 :: r' =>
        if is_digit d2 then
          let octal :=
            match r' with
            | d3 :: _ =>
                if is_octdigit e && is_octdigit d2 && is_octdigit d3
                then Some (64 * digit_val e + 8 * digit_val d2 + digit_val d3)
                else None
            | [] => None
            end in
          match octal with
          | Some c => if 255 <? c then None else Some ([Lit c], 3%nat)
          | None => addgroup groups (10 * digit_val e + digit_val d2) 2
          end
        else addgroup groups (digit_val e) 1
    | [] => addgroup groups (digit_val e) 1
    end
  else
    match escape_char e with
    | Some c => Some ([Lit c], 1%nat)
    | None => if is_ascii_letter e then None
              else Some ([Lit BACKSLASH; Lit e], 1%nat)
    end.

(** [parse_template]: [skip] counts the characters of the escape being
    read that are still to pass over. *)
Fixpoint parse_template_from (groups skip : nat) (t : str)
  : option (list piece) :=
  match t with
  | [] => Some []
  | c :: r =>
      match skip with
      | S k => parse_template_from groups k r
      | O =>
          if c =? BACKSLASH then
            match r with
            | [] => None
            | e :: r' =>
                match template_escape groups e r' with
                | Some (ps, used) =>
                    option_map (app ps) (parse_template_from groups used r)
                | None => None
                end
            end
          else option_map (cons (Lit c)) (parse_template_from groups 0 r)
      end
  end.

Definition parse_template (groups : nat) (t : str) : option (list piece) :=
  parse_template_from groups 0 t.

(** [expand_template]: group 0 is the whole match, group 1 the value. *)
Definition expand_template (ps : list piece) (whole value : str) : str :=
  flat_map (fun p => match p with
                     | Lit c => [c]
                     | Group O => whole
                     | Group (S _) => value
                     end) ps.

(** The match of the pattern on [key] at the start of [s]: the quoted
    value. *)
Definition match_here (key s : str) : option str :=
  if startswith s key then take_until QUOTE (skipn (List.length key) s)
  else None.

(** [pattern.search(s)]: the value of the leftmost match. *)
Fixpoint search (key s : str) : option str :=
  match match_here key s with
  | Some v => Some v
  | None => match s with
            | [] => None
            | _ :: t => search key t
            end
  end.

(** The scan of [pattern.sub]: every match, left to right, without
    overlap, is replaced by the expanded template. *)
Fixpoint sub_from (ps : list piece) (key : str) (skip : nat) (s : str) : str :=
  match s with
  | [] => []
  | c :: t =>
      match skip with
      | S k => sub_from ps key k t
      | O =>
          match match_here key s with
          | Some v =>
              expand_template ps (key ++ v ++ [QUOTE]) v
                ++ sub_from ps key (List.length key + List.length v) t
          | None => c :: sub_from ps key 0 t
          end
      end
  end.

(** [re.sub(pattern, repl, s)]: the template is compiled first, and a
    template Python rejects raises whether or not the pattern matches. *)
Definition sub (groups : nat) (key repl s : str) : option str :=
  match parse_template groups repl with
  | Some ps => Some (sub_from ps key 0 s)
  | None => None
  end.

End Re.

(** ** scripts/url_sorter.py *)

Module UrlSorter.
Import Py.

Definition EXTM3U : str := Eval vm_compute in lit "#EXTM3U".
Definition EXTINF : str := Eval vm_compute in lit "#EXTINF".
Definition HASH : str := Eval vm_compute in lit "#".
Definition SCHEME_SEP : str := Eval vm_compute in lit "://".
(** The text [tvg-name=] followed by a quote. *)
Definition TVG_NAME : str := Eval vm_compute in lit "tvg-name=" ++ [QUOTE].

(** A channel: the dict with keys [inf] and [urls]. *)
Record channel : Type := Channel { inf : str; urls : list str }.

(** [[k.strip() for k in s.split(',') if k.strip()]] *)
Definition csv_items (s : str) : list str :=
  map strip (filter (fun k => truthy (strip k)) (str_split COMMA s)).

Definition parse_keywords (keywords_str : str) : list str :=
  csv_items keywords_str.

(** [target_channels]: [None] when the argument is absent or empty. *)
Definition parse_targets (target_channels_str : option str)
  : option (list str) :=
  match target_channels_str with
  | Some s => if truthy s then Some (csv_items s) else None
  | None => None
  end.

(** Truth value of [target_channels]: a non-empty list. *)
Definition has_targets (target_channels : option (list str)) : bool :=
  match target_channels with
  | Some (_ :: _) => true
  | _ => false
  end.

(** *** Step 3: parsing *)

(** [processed_content] and [start_index]: only [lines[0]] is looked at. *)
Definition header_of (lines : list str) : option str :=
  match lines with
  | l0 :: _ => if str_in EXTM3U l0 then Some (strip l0) else None
  | [] => None
  end.

Definition start_index (lines : list str) : nat :=
  match header_of lines with Some _ => 1 | None => 0 end.

(** The variables of the parsing loop. *)
Record pstate : Type := PState {
  channels_data : list channel;
  current_inf : option str;
  current_urls : list str
}.

Definition flush (st : pstate) : list channel :=
  match current_inf st with
  | Some i =>
      if truthy i
      then channels_data st ++ [Channel i (current_urls st)]
      else channels_data st
  | None => channels_data st
  end.

(** One turn of the loop over [lines[start_index:]]. *)
Definition parse_step (st : pstate) (raw : str) : pstate :=
  let line := strip raw in
  if negb (truthy line) then st
  else if startswith line EXTINF then
    PState (flush st) (Some line) []
  else if negb (startswith line HASH) then
    PState (channels_data st) (current_inf st) (current_urls st ++ [line])
  else
    PState (channels_data st) (current_inf st) (current_urls st ++ [line]).

Definition parse_channels (lines : list str) : list channel :=
  flush (fold_left parse_step lines (PState [] None [])).

(** *** Step 4: the score *)

Fixpoint score_scan (reverse_mode : bool) (len : Z) (index : Z)
  (keywords : list str) (item : str) : Z :=
  match keywords with
  | [] => 0
  | kw :: rest =>
      if str_in kw item
      then (if reverse_mode then index + 1 else index - len)%Z
      else score_scan reverse_mode len (index + 1) rest item
  end.

Definition get_sort_score (keywords : list str) (reverse_mode : bool)
  (item : str) : Z :=
  if negb (str_in SCHEME_SEP item) then 9999%Z
  else score_scan reverse_mode (Z.of_nat (List.length keywords)) 0
         keywords item.

(** *** Step 5: renaming *)

(** [None] where [re.sub] raises on the replacement template. *)
Definition rename_inf (inf_line name : str) : option str :=
  match
    (if str_in TVG_NAME inf_line
     then Re.sub 0 TVG_NAME (TVG_NAME ++ name ++ [QUOTE]) inf_line
     else Some inf_line)
  with
  | Some inf_line' =>
      if str_in [COMMA] inf_line'
      then Some (hd [] (rsplit1 COMMA inf_line') ++ [COMMA] ++ name)
      else Some (inf_line' ++ [COMMA] ++ name)
  | None => None
  end.

(** *** Step 6: output *)

Definition is_target (target_channels : option (list str)) (ch : channel)
  : bool :=
  match target_channels with
  | Some ((_ :: _) as tcs) => existsb (fun tc => str_in tc (inf ch)) tcs
  | _ => false
  end.

Definition should_sort (target_channels : option (list str)) (ch : channel)
  : bool :=
  if has_targets target_channels then is_target target_channels ch else true.

Definition final_inf (target_channels : option (list str))
  (new_name : option str) (ch : channel) : option str :=
  match new_name with
  | Some name =>
      if is_target target_channels ch && truthy name
      then rename_inf (inf ch) name
      else Some (inf ch)
  | None => Some (inf ch)
  end.

(** The lines written after the info line of a channel. *)
Definition written_urls (keywords : list str) (reverse_mode : bool)
  (target_channels : option (list str)) (ch : channel) : list str :=
  if should_sort target_channels ch
     && match urls ch with [] => false | _ :: _ => true end
  then sorted (get_sort_score keywords reverse_mode) (urls ch)
  else urls ch.

(** [f.write(line + '\n')] for each line. *)
Definition write_lines (ls : list str) : str :=
  flat_map (fun l => l ++ [LF]) ls.

(** The lines of one turn of the loop over [channels_data]; [None] when
    the renaming raises, before anything of the channel is written. *)
Definition channel_lines (keywords : list str) (reverse_mode : bool)
  (target_channels : option (list str)) (new_name : option str)
  (ch : channel) : option (list str) :=
  match final_inf target_channels new_name ch with
  | Some fi =>
      Some (fi :: written_urls keywords reverse_mode target_channels ch)
  | None => None
  end.

(** The content of the output file when the run ends: complete, or what
    was written before an exception reached the handler of step 6. *)
Inductive outcome : Type :=
| Done (out : str)
| Failed (partial : str).

Definition written (o : outcome) : str :=
  match o with Done s => s | Failed s => s end.

(** The output file is opened with [encoding='utf-8']: [f.write] encodes
    its text when it is called, and the encoder raises
    UnicodeEncodeError on a surrogate code point (U+D800 to U+DFFF),
    before anything of the text is written.  The file system is taken to
    open the file and to accept the bytes. *)
Definition can_encode (s : str) : bool :=
  forallb (fun c => (c <? 55296)%N || (57343 <? c)%N) s.

(** [f.write(final_inf + '\n')] raises.  The lines of the input file
    were decoded from UTF-8 and hold no surrogate; the rename string
    comes from the command line, where a byte that is not UTF-8 is read
    as a lone surrogate.  So the write that can raise is that of a
    renamed info line, which holds the name. *)
Definition write_raises (target_channels : option (list str))
  (new_name : option str) (ch : channel) : bool :=
  match new_name with
  | Some name =>
      is_target target_channels ch && truthy name && negb (can_encode name)
  | None => false
  end.

Fixpoint write_channels (keywords : list str) (reverse_mode : bool)
  (target_channels : option (list str)) (new_name : option str)
  (f : str) (chs : list channel) : outcome :=
  match chs with
  | [] => Done f
  | ch :: rest =>
      match channel_lines keywords reverse_mode target_channels new_name ch
      with
      | Some ls =>
          if write_raises target_channels new_name ch then Failed f
          else
            write_channels keywords reverse_mode target_channels new_name
              (f ++ write_lines ls) rest
      | None => Failed f
      end
  end.

(** [sort_m3u_urls], from the text of the input file, as the UTF-8
    decoder of step 2 gave it, to the text of the output file. *)
Definition sort_m3u_urls (content : str) (keywords_str : str)
  (reverse_mode : bool) (target_channels_str : option str)
  (new_name : option str) : outcome :=
  let keywords := parse_keywords keywords_str in
  let target_channels := parse_targets target_channels_str in
  let lines := readlines content in
  let processed_content := header_of lines in
  let channels := parse_channels (skipn (start_index lines) lines) in
  write_channels keywords reverse_mode target_channels new_name
    (match processed_content with
     | Some h => h ++ [LF]
     | None => []
     end)
    channels.

End UrlSorter.

(** ** scripts/m3u_header_tool.py *)

Module HeaderTool.
Import Py.

Definition EXTM3U : str := Eval vm_compute in lit "#EXTM3U".
(** The text [x-tvg-url=] followed by a quote. *)
Definition X_TVG_URL : str := Eval vm_compute in lit "x-tvg-url=" ++ [QUOTE].

(** What the loop appends to [processed_lines] for one line: nothing for
    a deleted line; [None] where [re.sub] raises. *)
Definition process_line (replace_value force_value : option str)
  (delete_extm3u : bool) (raw : str) : option (list str) :=
  let line := rstrip raw in
  if startswith line EXTM3U then
    if delete_extm3u then Some []
    else
      let tvg_match := Re.search X_TVG_URL line in
      match force_value with
      | Some fv =>
          match tvg_match with
          | Some _ =>
              option_map (fun new_line => [new_line])
                (Re.sub 1 X_TVG_URL (X_TVG_URL ++ fv ++ [QUOTE]) line)
          | None => Some [line ++ [32%N] ++ X_TVG_URL ++ fv ++ [QUOTE]]
          end
      | None =>
          match replace_value with
          | Some rv =>
              match tvg_match with
              | Some current_value =>
                  if truthy (strip current_value)
                  then option_map (fun new_line => [new_line])
                         (Re.sub 1 X_TVG_URL (X_TVG_URL ++ rv ++ [QUOTE]) line)
                  else Some [line]
              | None => Some [line]
              end
          | None => Some [line]
          end
      end
  else Some [line].

Fixpoint process_loop (replace_value force_value : option str)
  (delete_extm3u : bool) (lines : list str) : option (list str) :=
  match lines with
  | [] => Some []
  | l :: rest =>
      match process_line replace_value force_value delete_extm3u l with
      | Some out =>
          option_map (app out)
            (process_loop replace_value force_value delete_extm3u rest)
      | None => None
      end
  end.

(** The directive line put in front when none is left. *)
Definition with_directive (force_value : option str) (delete_extm3u : bool)
  (processed_lines : list str) : list str :=
  let has := existsb (fun line => startswith line EXTM3U) processed_lines in
  match force_value with
  | Some fv =>
      if negb has
      then (EXTM3U ++ [32%N] ++ X_TVG_URL ++ fv ++ [QUOTE]) :: processed_lines
      else processed_lines
  | None =>
      if negb has && negb delete_extm3u
      then EXTM3U :: processed_lines
      else processed_lines
  end.

(** The list [processed_lines] at the end of [process_m3u_header]. *)
Definition processed_lines (file_content : str)
  (replace_value force_value : option str) (delete_extm3u : bool)
  : option (list str) :=
  option_map (with_directive force_value delete_extm3u)
    (process_loop replace_value force_value delete_extm3u
       (splitlines file_content)).

Definition process_m3u_header (file_content : str)
  (replace_value force_value : option str) (delete_extm3u : bool)
  : option str :=
  option_map (join [LF])
    (processed_lines file_content replace_value force_value delete_extm3u).

End HeaderTool.

(** ** Notions the properties are stated with *)

Module Spec.
Import Py UrlSorter.

(** [x] occurs in [s] as a contiguous run of characters, anywhere. *)
Definition occurs_in (x s : str) : Prop := exists a b, s = a ++ x ++ b.

(** A content line is a URL when it holds the scheme separator. *)
Definition is_url (item : str) : Prop := occurs_in SCHEME_SEP item.

(** The score of a line as the rules give it. *)
Inductive score_rule (keywords : list str) (reverse_mode : bool) (item : str)
  : Z -> Prop :=
| score_not_url :
    ~ is_url item ->
    score_rule keywords reverse_mode item 9999
| score_first_match (i : nat) (kw : str) :
    is_url item ->
    nth_error keywords i = Some kw ->
    occurs_in kw item ->
    (forall j kw', (j < i)%nat -> nth_error keywords j = Some kw' ->
                   ~ occurs_in kw' item) ->
    score_rule keywords reverse_mode item
      (if reverse_mode then Z.of_nat i + 1
       else Z.of_nat i - Z.of_nat (List.length keywords))
| score_no_match :
    is_url item ->
    (forall kw, In kw keywords -> ~ occurs_in kw item) ->
    score_rule keywords reverse_mode item 0.

(** Order of two lines by their keys. *)
Definition key_le {A : Type} (key : A -> Z) (x y : A) : Prop :=
  (key x <= key y)%Z.

(** The lines with a given key, in the order they have in [l]. *)
Definition with_key {A : Type} (key : A -> Z) (k : Z) (l : list A) : list A :=
  filter (fun x => (key x =? k)%Z) l.

(** A raw line whose trimmed text starts with the info marker. *)
Definition is_info_line (raw : str) : bool := startswith (strip raw) EXTINF.

(** The channels a run parses from the text of its input. *)
Definition channels_of (content : str) : list channel :=
  let lines := readlines content in
  parse_channels (skipn (start_index lines) lines).

(** What a run writes before the channels: the header line, if any. *)
Definition header_text (content : str) : str :=
  match header_of (readlines content) with
  | Some h => h ++ [LF]
  | None => []
  end.

(** The first line of a text as [readlines] gives it (empty for an
    empty text). *)
Definition first_line (content : str) : str := hd [] (readlines content).

(** The first line that is not blank, if any. *)
Definition first_non_empty (lines : list str) : option str :=
  find (fun l => truthy (strip l)) lines.

(** A text that does not start with a space. *)
Definition head_kept (s : str) : Prop :=
  match s with
  | [] => True
  | c :: _ => isspace c = false
  end.

(** A line without line terminators inside. *)
Definition no_newline (s : str) : Prop :=
  Forall (fun c => c <> LF /\ c <> CR) s.

(** A line as the parser keeps it: trimmed, on one line. *)
Definition kept_line (s : str) : Prop := strip s = s /\ no_newline s.

Definition kept_info (s : str) : Prop :=
  kept_line s /\ startswith s EXTINF = true.

Definition kept_content (s : str) : Prop :=
  kept_line s /\ s <> [] /\ startswith s EXTINF = false.

Definition kept_channel (ch : channel) : Prop :=
  kept_info (inf ch) /\ Forall kept_content (urls ch).

(** The variables of the parsing loop hold kept lines only. *)
Definition kept_state (st : pstate) : Prop :=
  Forall kept_channel (channels_data st)
  /\ (forall i, current_inf st = Some i -> kept_info i)
  /\ Forall kept_content (current_urls st).

(** The lines of a channel with its content lines sorted. *)
Definition sorted_channel (keywords : list str) (reverse_mode : bool)
  (ch : channel) : channel :=
  Channel (inf ch) (sorted (get_sort_score keywords reverse_mode) (urls ch)).

Definition channel_text (ch : channel) : list str := inf ch :: urls ch.

(** A replacement value the template compiler takes as it is. *)
Definition plain (v : option str) : Prop :=
  match v with
  | Some s => ~ In BACKSLASH s
  | None => True
  end.

(** A directive line of the header tool. *)
Definition is_directive (line : str) : bool :=
  startswith line HeaderTool.EXTM3U.

End Spec.

(** ** Sample inputs *)

Module Samples.
Import Py UrlSorter.

(** An info line with a tvg-name attribute of value Old and the display
    name Old Channel. *)
Definition old_info : str :=
  lit "#EXTINF:-1 tvg-name=" ++ [QUOTE] ++ lit "Old" ++ [QUOTE]
  ++ lit ",Old Channel".

(** The same line with [value] in the attribute and [shown] as display
    name. *)
Definition renamed_info (value shown : str) : str :=
  lit "#EXTINF:-1 tvg-name=" ++ [QUOTE] ++ value ++ [QUOTE]
  ++ [COMMA] ++ shown.

(** A playlist with a header line and that channel. *)
Definition old_playlist : str :=
  write_lines [lit "#EXTM3U"; old_info; lit "http://a"].

Definition cdn_keywords : list str := [lit "cdn1"; lit "cdn2"].

Definition cdn_lines : list str :=
  [lit "http://x/cdn2/a"; lit "http://x/other"; lit "http://x/cdn1/b"].

(** A playlist with a header line and one channel. *)
Definition playlist : str :=
  write_lines (lit "#EXTM3U" :: lit "#EXTINF:-1,News" :: cdn_lines).

(** A playlist whose directive line comes after a blank line. *)
Definition blank_first_playlist : str :=
  write_lines [[]; lit "#EXTM3U"; lit "#EXTINF:-1,A"; lit "http://a"].

(** A playlist that starts with a blank line and whose first channel
    has the directive marker in its name. *)
Definition marker_in_name_playlist : str :=
  write_lines [[]; lit "#EXTINF:-1,#EXTM3U news"; lit "http://a"].

(** A channel that the filter ESPN does not select. *)
Definition cnn_channel : channel :=
  Channel (lit "#EXTINF:-1,CNN") [lit "http://x/cdn2/a"; lit "http://x/cdn1/b"].

(** Input of the header tool: a directive line, a line that ends with
    two spaces, a second directive line. *)
Definition two_directives : str :=
  write_lines [lit "#EXTM3U"; lit "http://a/1  "; lit "#EXTM3U old"].

End Samples.

(** ** Further notions: groups of lines, clean lists, well-formed lines *)

Module More.
Import Py UrlSorter Spec.

(** An entry of a comma-separated argument as the sorter keeps it. *)
Definition clean_item (k : str) : Prop :=
  k <> [] /\ strip k = k /\ ~ In COMMA k.

(** The index of the first keyword that occurs in a line. *)
Fixpoint first_match (keywords : list str) (item : str) : option nat :=
  match keywords with
  | [] => None
  | kw :: rest =>
      if str_in kw item then Some O
      else option_map S (first_match rest item)
  end.

Definition is_first_match (keywords : list str) (i : nat) (item : str) : bool :=
  match first_match keywords item with
  | Some j => Nat.eqb j i
  | None => false
  end.

Definition has_match (keywords : list str) (item : str) : bool :=
  match first_match keywords item with
  | Some _ => true
  | None => false
  end.

(** The URLs of [l] whose first keyword is the one of index [i]. *)
Definition matched_by (keywords : list str) (i : nat) (l : list str)
  : list str :=
  filter (fun item => str_in SCHEME_SEP item && is_first_match keywords i item)
    l.

(** The URLs in which a keyword occurs, by keyword, first keyword first. *)
Definition by_priority (keywords : list str) (l : list str) : list str :=
  flat_map (fun i => matched_by keywords i l) (seq 0 (List.length keywords)).

(** The URLs in which no keyword occurs. *)
Definition unmatched_urls (keywords : list str) (l : list str) : list str :=
  filter (fun item => str_in SCHEME_SEP item && negb (has_match keywords item))
    l.

(** The lines that are no URLs. *)
Definition other_lines (l : list str) : list str :=
  filter (fun item => negb (str_in SCHEME_SEP item)) l.

(** The scores a line can get, in increasing order. *)
Definition score_values (reverse_mode : bool) (n : nat) : list Z :=
  if reverse_mode
  then 0%Z :: map (fun i => (Z.of_nat i + 1)%Z) (seq 0 n) ++ [9999%Z]
  else map (fun i => (Z.of_nat i - Z.of_nat n)%Z) (seq 0 n) ++ [0%Z; 9999%Z].

(** The directive line the header tool builds for a forced value. *)
Definition forced_directive (fv : str) : str :=
  HeaderTool.EXTM3U ++ [32%N] ++ HeaderTool.X_TVG_URL ++ fv ++ [QUOTE].

(** The lines of a file that are no directive lines, without their
    trailing spaces. *)
Definition plain_lines (file_content : str) : list str :=
  filter (fun l => negb (is_directive l)) (map rstrip (splitlines file_content)).

(** A directive line on which the replace option has nothing to do. *)
Definition no_value_to_replace (line : str) : Prop :=
  match Re.search HeaderTool.X_TVG_URL line with
  | Some current_value => strip current_value = []
  | None => True
  end.

(** No match of the pattern on [key] starts inside [a] when [z]
    follows. *)
Definition no_hit (key a z : str) : Prop :=
  forall a1 a2, a = a1 ++ a2 -> a2 <> [] -> Re.match_here key (a2 ++ z) = None.

(** A directive line whose x-tvg-url attribute, if it has the key, is
    closed by a quote. *)
Definition attribute_closed (line : str) : Prop :=
  Re.search HeaderTool.X_TVG_URL line = None ->
  ~ occurs_in HeaderTool.X_TVG_URL line.

(** A line without line boundary inside. *)
Definition one_line (l : str) : Prop :=
  Forall (fun c => is_linebreak c = false) l.

(** A list of lines that is empty or ends with a line that is not
    empty: the lists that [splitlines] gives back after [join]. *)
Fixpoint ends_with_text (ls : list str) : bool :=
  match ls with
  | [] => true
  | l :: rest =>
      match rest with
      | [] => truthy l
      | _ :: _ => ends_with_text rest
      end
  end.



(** A text that the UTF-8 encoder of the output file takes: it holds no
    surrogate code point. *)
Definition encodable (s : str) : Prop :=
  Forall (fun c => (c < 55296)%N \/ (57343 < c)%N) s.

(** A rename string that [re.sub] and [f.write] take: without backslash,
    without surrogate code point. *)
Definition usable_name (new_name : option str) : Prop :=
  match new_name with
  | Some name => ~ In BACKSLASH name /\ encodable name
  | None => True
  end.

(** A rename string that is put into the info line as it is and keeps
    it on one line: without backslash, without line terminator. *)
Definition simple_name (new_name : option str) : Prop :=
  match new_name with
  | Some name => ~ In BACKSLASH name /\ no_newline name
  | None => True
  end.

(** [c] does not occur in [s], as a test. *)
Definition lacks (c : char) (s : str) : bool := negb (existsb (N.eqb c) s).

End More.

(** ** Further sample inputs *)

Module MoreSamples.
Import Py UrlSorter.

(** A playlist with a header line and URLs, but no info line. *)
Definition urls_only : str :=
  write_lines [lit "#EXTM3U"; lit "http://a"; lit "http://b"].

(** The playlist of [Samples.playlist] with spaces around its lines. *)
Definition indented_playlist : str :=
  write_lines (lit "  #EXTM3U " :: lit "#EXTINF:-1,News  "
               :: map (fun l => lit "   " ++ l) Samples.cdn_lines).

(** A file for the header tool without directive line. *)
Definition no_directive : str :=
  write_lines [lit "#EXTINF:-1,A"; lit "http://a/1  "].

(** A directive line with the value old in its x-tvg-url attribute. *)
Definition directive_with_value : str :=
  lit "#EXTM3U x-tvg-url=" ++ [QUOTE] ++ lit "old" ++ [QUOTE] ++ lit "  ".

(** The output lines of the header tool on [Samples.two_directives]
    without option. *)
Definition two_directives_lines : list str :=
  [lit "#EXTM3U"; lit "http://a/1"; lit "#EXTM3U old"].

(** A rename string as the command line gives it for the bytes of Fox
    followed by the byte 0x80, which is not UTF-8: Python reads that
    byte as the lone surrogate U+DC80. *)
Definition surrogate_name : str := lit "Fox" ++ [56448%N].

(** A rename string of two lines, the second one an info line. *)
Definition two_line_name : str := lit "X" ++ [LF] ++ lit "#EXTINF:-1,Y".

End MoreSamples.

Import Py UrlSorter Spec More.

(** ** The stable sort *)

Section SortedFacts.
Context {A : Type} (key : A -> Z).

Lemma insert_by_perm (x : A) (l : list A) :
  Permutation (x :: l) (insert_by key x l).
Proof.
  induction l as [|y t IH]; simpl.
  - apply Permutation_refl.
  - destruct (key x <=? key y)%Z.
    + apply Permutation_refl.
    + eapply perm_trans; [apply perm_swap|].
      now apply perm_skip.
Qed.

Lemma sorted_perm (l : list A) : Permutation l (sorted key l).
Proof.
  induction l as [|x t IH]; simpl.
  - constructor.
  - eapply perm_trans; [apply perm_skip, IH|]. apply insert_by_perm.
Qed.

Lemma insert_by_ordered (x : A) (l : list A) :
  StronglySorted (key_le key) l ->
  StronglySorted (key_le key) (insert_by key x l).
Proof.
  induction 1 as [|y t Ht IH Hy]; simpl.
  - repeat constructor.
  - destruct (key x <=? key y)%Z eqn:E.
    + apply Z.leb_le in E. constructor.
      * now constructor.
      * constructor; [exact E|].
        eapply Forall_impl; [|exact Hy].
        intros z Hz. unfold key_le in *. lia.
    + apply Z.leb_gt in E. constructor; [exact IH|].
      eapply Permutation_Forall; [apply insert_by_perm|].
      constructor; [unfold key_le; lia | exact Hy].
Qed.

Lemma sorted_ordered (l : list A) : StronglySorted (key_le key) (sorted key l).
Proof.
  induction l as [|x t IH]; simpl.
  - constructor.
  - now apply insert_by_ordered.
Qed.

Lemma insert_by_with_key (k : Z) (x : A) (l : list A) :
  with_key key k (insert_by key x l) = with_key key k (x :: l).
Proof.
  unfold with_key.
  induction l as [|y t IH]; simpl; [reflexivity|].
  destruct (key x <=? key y)%Z eqn:E; [reflexivity|].
  apply Z.leb_gt in E. simpl. rewrite IH. simpl.
  destruct (key x =? k)%Z eqn:Ex, (key y =? k)%Z eqn:Ey; try reflexivity.
  apply Z.eqb_eq in Ex, Ey. lia.
Qed.

Lemma sorted_with_key (k : Z) (l : list A) :
  with_key key k (sorted key l) = with_key key k l.
Proof.
  induction l as [|x t IH]; simpl; [reflexivity|].
  rewrite insert_by_with_key. unfold with_key in *. simpl. now rewrite IH.
Qed.

(** In a list ordered by key, an earlier element has the smaller key. *)
Lemma ordered_split (a b c : list A) (x y : A) :
  StronglySorted (key_le key) (a ++ x :: b ++ y :: c) ->
  (key x <= key y)%Z.
Proof.
  induction a as [|z a IH]; simpl; intros H.
  - apply StronglySorted_inv in H. destruct H as [_ H].
    rewrite Forall_forall in H. apply H.
    apply in_or_app. right. now left.
  - apply StronglySorted_inv in H. now apply IH.
Qed.

(** A list ordered by key is left as it is. *)
Lemma sorted_fixed (l : list A) :
  StronglySorted (key_le key) l -> sorted key l = l.
Proof.
  induction 1 as [|x t Ht IH Hx]; simpl; [reflexivity|].
  rewrite IH. destruct t as [|y t']; simpl; [reflexivity|].
  apply Forall_inv in Hx. unfold key_le in Hx.
  apply Z.leb_le in Hx. now rewrite Hx.
Qed.

Lemma sorted_idempotent (l : list A) :
  sorted key (sorted key l) = sorted key l.
Proof. apply sorted_fixed, sorted_ordered. Qed.
End SortedFacts.

(** ** Prefixes and occurrences *)

Lemma startswith_app (p b : str) : startswith (p ++ b) p = true.
Proof.
  induction p as [|a p IH]; simpl; [reflexivity|].
  now rewrite N.eqb_refl.
Qed.

Lemma startswith_inv (s p : str) :
  startswith s p = true -> exists b, s = p ++ b.
Proof.
  revert s. induction p as [|a p IH]; intros s H; simpl in *.
  - now exists s.
  - destruct s as [|c s]; [discriminate|].
    apply andb_true_iff in H. destruct H as [Hc Hs].
    apply N.eqb_eq in Hc. subst c.
    destruct (IH _ Hs) as [b ->]. now exists b.
Qed.

Lemma startswith_iff (s p : str) :
  startswith s p = true <-> exists b, s = p ++ b.
Proof.
  split; [apply startswith_inv|].
  intros [b ->]. apply startswith_app.
Qed.

Lemma str_in_cons (x s : str) (c : char) :
  str_in x (c :: s) = startswith (c :: s) x || str_in x s.
Proof. reflexivity. Qed.

Lemma str_in_nil (x : str) : str_in x [] = startswith [] x.
Proof. simpl. now rewrite orb_false_r. Qed.

Lemma str_in_occurs (x s : str) : str_in x s = true <-> occurs_in x s.
Proof.
  split.
  - induction s as [|c s IH]; intros H.
    + rewrite str_in_nil in H. apply startswith_inv in H.
      destruct H as [b Hb]. now exists [], b.
    + rewrite str_in_cons in H. apply orb_true_iff in H.
      destruct H as [H|H].
      * apply startswith_inv in H. destruct H as [b Hb]. now exists [], b.
      * destruct (IH H) as (a & b & ->). now exists (c :: a), b.
  - intros (a & b & ->). induction a as [|c a IH].
    + simpl app. destruct (x ++ b) eqn:E.
      * rewrite str_in_nil, <- E. apply startswith_app.
      * rewrite str_in_cons, <- E, startswith_app. reflexivity.
    + simpl app. rewrite str_in_cons, IH. apply orb_true_r.
Qed.

Lemma str_in_not_occurs (x s : str) : str_in x s = false <-> ~ occurs_in x s.
Proof.
  rewrite <- str_in_occurs. destruct (str_in x s); split; congruence.
Qed.

(** ** The score (C2, C10) *)

Lemma score_scan_rule (reverse_mode : bool) (item : str) (done rest : list str) :
  (forall kw, In kw done -> ~ occurs_in kw item) ->
  (exists i kw,
      nth_error (done ++ rest) i = Some kw /\ occurs_in kw item /\
      (forall j kw', (j < i)%nat -> nth_error (done ++ rest) j = Some kw' ->
                     ~ occurs_in kw' item) /\
      score_scan reverse_mode (Z.of_nat (List.length (done ++ rest)))
        (Z.of_nat (List.length done)) rest item
      = (if reverse_mode then Z.of_nat i + 1
         else Z.of_nat i - Z.of_nat (List.length (done ++ rest)))%Z)
  \/ ((forall kw, In kw (done ++ rest) -> ~ occurs_in kw item) /\
      score_scan reverse_mode (Z.of_nat (List.length (done ++ rest)))
        (Z.of_nat (List.length done)) rest item = 0%Z).
Proof.
  revert done. induction rest as [|kw rest IH]; intros done Hdone.
  - right. rewrite app_nil_r. split; [exact Hdone | reflexivity].
  - simpl score_scan. destruct (str_in kw item) eqn:E.
    + left. exists (List.length done), kw. repeat split.
      * rewrite nth_error_app2 by lia. now rewrite Nat.sub_diag.
      * now apply str_in_occurs.
      * intros j kw' Hj Hn. rewrite nth_error_app1 in Hn by exact Hj.
        apply Hdone. eapply nth_error_In; eauto.
    + assert (Hdone' : forall k, In k (done ++ [kw]) -> ~ occurs_in k item).
      { intros k Hk. apply in_app_or in Hk. destruct Hk as [Hk|[<-|[]]].
        - now apply Hdone.
        - now apply str_in_not_occurs. }
      specialize (IH (done ++ [kw]) Hdone').
      replace ((done ++ [kw]) ++ rest) with (done ++ kw :: rest) in IH
        by (now rewrite <- app_assoc).
      replace (Z.of_nat (List.length (done ++ [kw])))
        with (Z.of_nat (List.length done) + 1)%Z in IH
        by (rewrite length_app; simpl; lia).
      exact IH.
Qed.

(** The score follows the rules. *)
Lemma score_rule_holds (keywords : list str) (reverse_mode : bool)
  (item : str) :
  score_rule keywords reverse_mode item
    (get_sort_score keywords reverse_mode item).
Proof.
  unfold get_sort_score.
  destruct (str_in SCHEME_SEP item) eqn:E; simpl negb; cbv iota.
  - apply str_in_occurs in E.
    destruct (score_scan_rule reverse_mode item [] keywords)
      as [(i & kw & Hn & Hk & Hfirst & Hs)|[Hnone Hs]].
    + intros kw [].
    + simpl in Hs, Hn, Hfirst. rewrite Hs.
      now apply score_first_match with (kw := kw).
    + simpl in Hs, Hnone. rewrite Hs. now apply score_no_match.
  - apply score_not_url. now apply str_in_not_occurs.
Qed.

(** The three rules exclude one another: the score is the only value
    they allow. *)
Lemma score_rule_unique (keywords : list str) (reverse_mode : bool)
  (item : str) (z : Z) :
  score_rule keywords reverse_mode item z ->
  z = get_sort_score keywords reverse_mode item.
Proof.
  intros H. pose proof (score_rule_holds keywords reverse_mode item) as G.
  revert G. generalize (get_sort_score keywords reverse_mode item). intros z' G.
  destruct H as [Hn | i kw Hu Hi Hk Hf | Hu Hnone];
    destruct G as [Gn | i' kw' Gu Gi Gk Gf | Gu Gnone];
    try reflexivity; try contradiction.
  - destruct (Nat.lt_trichotomy i i') as [L|[->|L]].
    + exfalso. exact (Gf _ _ L Hi Hk).
    + reflexivity.
    + exfalso. exact (Hf _ _ L Gi Gk).
  - exfalso. apply (Gnone kw); [eapply nth_error_In; eauto | exact Hk].
  - exfalso. apply (Hnone kw'); [eapply nth_error_In; eauto | exact Gk].
Qed.

(** C2. The score of a line: 9999 for a line without the scheme
    separator; for a URL, with i the index of the first keyword of the
    list that occurs in it, i - len(keywords) in normal mode and i + 1 in
    reverse mode; 0 for a URL in which no keyword occurs.  The score is
    the value these rules give, and the only one. *)
Theorem get_sort_score_rule (keywords : list str) (reverse_mode : bool)
  (item : str) (z : Z) :
  score_rule keywords reverse_mode item z
  <-> z = get_sort_score keywords reverse_mode item.
Proof.
  split.
  - apply score_rule_unique.
  - intros ->. apply score_rule_holds.
Qed.

Lemma url_score_bound (keywords : list str) (reverse_mode : bool) (item : str) :
  is_url item ->
  (get_sort_score keywords reverse_mode item
   <= if reverse_mode then Z.of_nat (List.length keywords) else 0)%Z.
Proof.
  intros Hu.
  destruct (score_rule_holds keywords reverse_mode item)
    as [Hn | i kw _ Hi _ _ | _ _].
  - contradiction.
  - assert (i < List.length keywords)%nat
      by (apply nth_error_Some; congruence).
    destruct reverse_mode; lia.
  - destruct reverse_mode; lia.
Qed.

Lemma non_url_score (keywords : list str) (reverse_mode : bool) (item : str) :
  ~ is_url item -> get_sort_score keywords reverse_mode item = 9999%Z.
Proof.
  intros Hn. unfold get_sort_score.
  apply str_in_not_occurs in Hn. now rewrite Hn.
Qed.

Lemma is_url_dec (item : str) : {is_url item} + {~ is_url item}.
Proof.
  destruct (str_in SCHEME_SEP item) eqn:E.
  - left. now apply str_in_occurs.
  - right. now apply str_in_not_occurs.
Qed.

Lemma written_urls_sorted (keywords : list str) (reverse_mode : bool)
  (target_channels : option (list str)) (ch : channel) :
  should_sort target_channels ch = true ->
  written_urls keywords reverse_mode target_channels ch
  = sorted (get_sort_score keywords reverse_mode) (urls ch).
Proof.
  intros H. unfold written_urls. rewrite H.
  destruct (urls ch); reflexivity.
Qed.

(** C10. With fewer than 9999 keywords, in both modes, the score 9999 of
    a line that is not a URL is above the score of every URL (at most
    len(keywords) in reverse mode, at most 0 in normal mode); so in the
    sorted lines of a channel no line that is not a URL comes before a
    URL. *)
Theorem non_url_lines_sort_last (keywords : list str) (reverse_mode : bool) :
  (Z.of_nat (List.length keywords) < 9999)%Z ->
  (forall item, ~ is_url item ->
     get_sort_score keywords reverse_mode item = 9999%Z) /\
  (forall item, is_url item ->
     (get_sort_score keywords reverse_mode item
      <= if reverse_mode then Z.of_nat (List.length keywords) else 0)%Z /\
     (get_sort_score keywords reverse_mode item < 9999)%Z) /\
  (forall target_channels ch a x b y c,
     should_sort target_channels ch = true ->
     written_urls keywords reverse_mode target_channels ch
     = a ++ x :: b ++ y :: c ->
     is_url y -> is_url x).
Proof.
  intros Hlen. split; [|split].
  - intros item. apply non_url_score.
  - intros item Hu. pose proof (url_score_bound keywords reverse_mode item Hu) as B.
    split; [exact B|]. destruct reverse_mode; lia.
  - intros tcs ch a x b y c Hs Hw Hy.
    rewrite (written_urls_sorted keywords reverse_mode _ _ Hs) in Hw.
    pose proof (sorted_ordered (get_sort_score keywords reverse_mode) (urls ch))
      as Ho.
    rewrite Hw in Ho. apply ordered_split in Ho.
    destruct (is_url_dec x) as [Hx|Hx]; [exact Hx|exfalso].
    rewrite (non_url_score keywords reverse_mode x Hx) in Ho.
    pose proof (url_score_bound keywords reverse_mode y Hy) as B.
    destruct reverse_mode; lia.
Qed.

(** ** The channel processor (C1, C5, C8) *)

(** C5. The sort of a channel's lines is stable: the written lines are
    the channel's lines, in the order of their scores, and the lines of
    any one score keep the order they had in the input. *)
Theorem channel_sort_stable (keywords : list str) (reverse_mode : bool)
  (target_channels : option (list str)) (ch : channel) :
  should_sort target_channels ch = true ->
  let score := get_sort_score keywords reverse_mode in
  let out := written_urls keywords reverse_mode target_channels ch in
  Permutation (urls ch) out /\
  StronglySorted (key_le score) out /\
  forall k, with_key score k out = with_key score k (urls ch).
Proof.
  intros Hs score out. subst out.
  rewrite (written_urls_sorted keywords reverse_mode _ _ Hs).
  split; [|split].
  - apply sorted_perm.
  - apply sorted_ordered.
  - intros k. apply sorted_with_key.
Qed.

Lemma is_target_global (target_channels : option (list str)) (ch : channel) :
  has_targets target_channels = false -> is_target target_channels ch = false.
Proof. destruct target_channels as [[|tc tcs]|]; simpl; congruence. Qed.

Lemma final_inf_not_target (target_channels : option (list str))
  (new_name : option str) (ch : channel) :
  is_target target_channels ch = false ->
  final_inf target_channels new_name ch = Some (inf ch).
Proof. intros H. unfold final_inf. rewrite H. now destruct new_name. Qed.

Lemma write_raises_not_target (target_channels : option (list str))
  (new_name : option str) (ch : channel) :
  is_target target_channels ch = false ->
  write_raises target_channels new_name ch = false.
Proof. intros H. unfold write_raises. rewrite H. now destruct new_name. Qed.

Lemma write_channels_ext (keywords : list str) (reverse_mode : bool)
  (tcs : option (list str)) (n1 n2 : option str) (chs : list channel) :
  (forall ch, channel_lines keywords reverse_mode tcs n1 ch
              = channel_lines keywords reverse_mode tcs n2 ch) ->
  (forall ch, write_raises tcs n1 ch = write_raises tcs n2 ch) ->
  forall f, write_channels keywords reverse_mode tcs n1 f chs
            = write_channels keywords reverse_mode tcs n2 f chs.
Proof.
  intros H Hw. induction chs as [|ch rest IH]; intros f; simpl.
  - reflexivity.
  - rewrite H, Hw.
    destruct (channel_lines keywords reverse_mode tcs n2 ch);
      [|reflexivity].
    destruct (write_raises tcs n2 ch); [reflexivity | apply IH].
Qed.

Lemma channel_lines_global (keywords : list str) (reverse_mode : bool)
  (target_channels : option (list str)) (new_name : option str)
  (ch : channel) :
  has_targets target_channels = false ->
  channel_lines keywords reverse_mode target_channels new_name ch
  = Some (inf ch :: sorted (get_sort_score keywords reverse_mode) (urls ch)).
Proof.
  intros Hg. unfold channel_lines.
  rewrite final_inf_not_target by now apply is_target_global.
  rewrite written_urls_sorted; [reflexivity|].
  unfold should_sort. now rewrite Hg.
Qed.

(** C1, as the code has it.  Without a target filter no channel is a
    target: every info line is written as it was read, whatever rename
    string is supplied, and the lines of every channel are sorted; the
    run writes what it writes without a rename string. *)
Theorem global_mode_never_renames (keywords : list str) (reverse_mode : bool)
  (target_channels : option (list str)) (new_name : option str) :
  has_targets target_channels = false ->
  (forall ch,
     is_target target_channels ch = false /\
     channel_lines keywords reverse_mode target_channels new_name ch
     = Some (inf ch :: sorted (get_sort_score keywords reverse_mode) (urls ch)))
  /\
  (forall f chs,
     write_channels keywords reverse_mode target_channels new_name f chs
     = write_channels keywords reverse_mode target_channels None f chs).
Proof.
  intros Hg. split.
  - intros ch. split; [now apply is_target_global|].
    now apply channel_lines_global.
  - intros f chs. apply write_channels_ext; intros ch.
    + now rewrite !channel_lines_global.
    + now rewrite !write_raises_not_target by now apply is_target_global.
Qed.

(** C8. With a target filter, a channel whose info line holds none of
    the filter's substrings is written with its info line and its lines
    as they were read, in their order, whatever the keywords, the mode
    and the rename string. *)
Theorem non_target_channel_untouched (keywords : list str)
  (reverse_mode : bool) (tcs : list str) (new_name : option str)
  (ch : channel) :
  tcs <> [] ->
  (forall tc, In tc tcs -> ~ occurs_in tc (inf ch)) ->
  channel_lines keywords reverse_mode (Some tcs) new_name ch
  = Some (inf ch :: urls ch).
Proof.
  intros Hne Hnone.
  assert (Ht : is_target (Some tcs) ch = false).
  { destruct tcs as [|t0 ts]; [reflexivity|]. unfold is_target.
    apply not_true_is_false. intros E. apply existsb_exists in E.
    destruct E as (tc & Hin & Hc). apply str_in_occurs in Hc.
    exact (Hnone tc Hin Hc). }
  unfold channel_lines. rewrite (final_inf_not_target _ new_name _ Ht).
  unfold written_urls, should_sort.
  destruct tcs as [|t0 ts]; [congruence|].
  simpl has_targets. cbv iota. rewrite Ht. reflexivity.
Qed.

(** ** The parser (C9) *)

Lemma startswith_nil_false (p : str) : p <> [] -> startswith [] p = false.
Proof. destruct p; [congruence | reflexivity]. Qed.

Lemma parse_step_blank (st : pstate) (raw : str) :
  strip raw = [] -> parse_step st raw = st.
Proof. intros H. unfold parse_step. now rewrite H. Qed.

Lemma parse_step_info (st : pstate) (raw : str) :
  is_info_line raw = true ->
  parse_step st raw = PState (flush st) (Some (strip raw)) [].
Proof.
  unfold is_info_line, parse_step. intros H. rewrite H.
  destruct (strip raw); [discriminate | reflexivity].
Qed.

Lemma parse_step_content (st : pstate) (raw : str) :
  strip raw <> [] -> is_info_line raw = false ->
  parse_step st raw
  = PState (channels_data st) (current_inf st) (current_urls st ++ [strip raw]).
Proof.
  unfold is_info_line, parse_step. intros Hne H. rewrite H.
  destruct (strip raw) as [|c l] eqn:E; [congruence|]. cbn [negb truthy].
  now destruct (startswith (c :: l) HASH).
Qed.

(** The three cases of a turn of the loop. *)
Lemma parse_step_cases (st : pstate) (raw : str) :
  (strip raw = [] /\ is_info_line raw = false /\ parse_step st raw = st)
  \/ (strip raw <> [] /\ is_info_line raw = true /\
      parse_step st raw = PState (flush st) (Some (strip raw)) [])
  \/ (strip raw <> [] /\ is_info_line raw = false /\
      parse_step st raw
      = PState (channels_data st) (current_inf st)
          (current_urls st ++ [strip raw])).
Proof.
  destruct (strip raw) as [|c l] eqn:E.
  - left. repeat split.
    + unfold is_info_line. now rewrite E.
    + now apply parse_step_blank.
  - right. destruct (is_info_line raw) eqn:I.
    + left. repeat split; [congruence|]. rewrite <- E. now apply parse_step_info.
    + right. repeat split; [congruence|]. rewrite <- E.
      apply parse_step_content; congruence.
Qed.

Lemma flush_length_content (st : pstate) (line : str) :
  List.length
    (flush (PState (channels_data st) (current_inf st)
              (current_urls st ++ [line])))
  = List.length (flush st).
Proof.
  unfold flush. simpl. destruct (current_inf st) as [i|]; [|reflexivity].
  destruct (truthy i); [|reflexivity]. now rewrite !length_app.
Qed.

Lemma parse_loop_count (lines : list str) (st : pstate) :
  List.length (flush (fold_left parse_step lines st))
  = (List.length (flush st) + List.length (filter is_info_line lines))%nat.
Proof.
  revert st. induction lines as [|raw rest IH]; intros st; simpl.
  - lia.
  - rewrite IH.
    destruct (parse_step_cases st raw)
      as [(_ & I & ->)|[(Hne & I & ->)|(_ & I & ->)]]; rewrite I; simpl.
    + reflexivity.
    + unfold flush at 1. simpl.
      destruct (strip raw); [congruence|]. simpl. rewrite length_app. simpl. lia.
    + now rewrite flush_length_content.
Qed.

(** Lines gathered while no info line is open are never written to a
    record. *)
Lemma parse_loop_orphans (lines : list str) (cd : list channel)
  (us us' : list str) :
  flush (fold_left parse_step lines (PState cd None us))
  = flush (fold_left parse_step lines (PState cd None us')).
Proof.
  revert us us'. induction lines as [|raw rest IH]; intros us us'; simpl.
  - reflexivity.
  - destruct (parse_step_cases (PState cd None us) raw)
      as [(E & _ & ->)|[(Hne & I & ->)|(Hne & I & ->)]].
    + rewrite (parse_step_blank _ _ E). apply IH.
    + rewrite (parse_step_info _ _ I). reflexivity.
    + rewrite (parse_step_content _ _ Hne I). simpl. apply IH.
Qed.

Lemma parse_loop_prefix (pre : list str) (us : list str) :
  Forall (fun l => is_info_line l = false) pre ->
  exists us', fold_left parse_step pre (PState [] None us) = PState [] None us'.
Proof.
  intros H. revert us. induction H as [|raw pre Hraw _ IH]; intros us; simpl.
  - now exists us.
  - destruct (parse_step_cases (PState [] None us) raw)
      as [(_ & _ & ->)|[(_ & I & _)|(_ & _ & ->)]].
    + apply IH.
    + congruence.
    + simpl. apply IH.
Qed.

Lemma write_lines_app (a b : list str) :
  write_lines (a ++ b) = write_lines a ++ write_lines b.
Proof. unfold write_lines. apply flat_map_app. Qed.

Lemma write_channels_done (keywords : list str) (reverse_mode : bool)
  (tcs : option (list str)) (new_name : option str) (chs : list channel) :
  forall f out,
    write_channels keywords reverse_mode tcs new_name f chs = Done out ->
    exists groups,
      Forall2 (fun ch g =>
                 channel_lines keywords reverse_mode tcs new_name ch = Some g)
        chs groups
      /\ out = f ++ write_lines (List.concat groups).
Proof.
  induction chs as [|ch rest IH]; intros f out H; simpl in H.
  - exists []. split; [constructor|]. simpl. rewrite app_nil_r. congruence.
  - destruct (channel_lines keywords reverse_mode tcs new_name ch) as [g|] eqn:E;
      [|discriminate].
    destruct (write_raises tcs new_name ch); [discriminate|].
    destruct (IH _ _ H) as (groups & HF & ->).
    exists (g :: groups). split; [now constructor|].
    simpl. now rewrite write_lines_app, app_assoc.
Qed.


(** ** Trimming *)

Lemma rstrip_cons (c : char) (t : str) :
  rstrip (c :: t)
  = match rstrip t with
    | [] => if isspace c then [] else [c]
    | r => c :: r
    end.
Proof. reflexivity. Qed.

Lemma lstrip_cons (c : char) (t : str) :
  lstrip (c :: t) = if isspace c then lstrip t else c :: t.
Proof. reflexivity. Qed.

Lemma rstrip_cons_kept (c : char) (t : str) :
  isspace c = false -> rstrip (c :: t) = c :: rstrip t.
Proof. intros H. rewrite rstrip_cons, H. now destruct (rstrip t). Qed.

Lemma rstrip_app (a b : str) :
  rstrip (a ++ b)
  = match rstrip b with
    | [] => rstrip a
    | _ :: _ => a ++ rstrip b
    end.
Proof.
  induction a as [|c a IH]; simpl app.
  - now destruct (rstrip b).
  - rewrite rstrip_cons, IH. destruct (rstrip b) as [|x r] eqn:E.
    + now rewrite rstrip_cons.
    + destruct (a ++ x :: r) eqn:E2; [|reflexivity].
      apply app_eq_nil in E2. destruct E2; discriminate.
Qed.

Lemma rstrip_idem (s : str) : rstrip (rstrip s) = rstrip s.
Proof.
  induction s as [|c t IH]; [reflexivity|].
  rewrite rstrip_cons. destruct (rstrip t) as [|x r] eqn:E.
  - destruct (isspace c) eqn:Hc; [reflexivity|].
    rewrite rstrip_cons. simpl rstrip. now rewrite Hc.
  - rewrite rstrip_cons, IH. reflexivity.
Qed.

Lemma lstrip_head (s : str) : head_kept (lstrip s).
Proof.
  induction s as [|c t IH]; [exact I|].
  rewrite lstrip_cons. destruct (isspace c) eqn:E; [exact IH | exact E].
Qed.

Lemma lstrip_fixed (s : str) : head_kept s -> lstrip s = s.
Proof.
  destruct s as [|c t]; [reflexivity|]. intros H.
  change (isspace c = false) in H. now rewrite lstrip_cons, H.
Qed.

Lemma rstrip_head (s : str) : head_kept s -> head_kept (rstrip s).
Proof.
  destruct s as [|c t]; [trivial|]. intros H.
  rewrite (rstrip_cons_kept c t H). exact H.
Qed.

Lemma strip_idem (s : str) : strip (strip s) = strip s.
Proof.
  unfold strip.
  rewrite (lstrip_fixed _ (rstrip_head _ (lstrip_head s))).
  apply rstrip_idem.
Qed.

Lemma rstrip_snoc_space (s : str) (c : char) :
  isspace c = true -> rstrip (s ++ [c]) = rstrip s.
Proof.
  intros H. rewrite rstrip_app, rstrip_cons. simpl rstrip. now rewrite H.
Qed.

Lemma strip_snoc_space (s : str) (c : char) :
  isspace c = true -> strip (s ++ [c]) = strip s.
Proof.
  intros H. unfold strip. induction s as [|x t IH].
  - simpl app. rewrite lstrip_cons, H. reflexivity.
  - simpl app. rewrite !lstrip_cons. destruct (isspace x); [exact IH|].
    change (x :: t ++ [c]) with ((x :: t) ++ [c]).
    now apply rstrip_snoc_space.
Qed.

Lemma Forall_lstrip (P : char -> Prop) (s : str) :
  Forall P s -> Forall P (lstrip s).
Proof.
  induction 1 as [|c t Hc Ht IH]; [constructor|].
  rewrite lstrip_cons. destruct (isspace c); [exact IH | now constructor].
Qed.

Lemma Forall_rstrip (P : char -> Prop) (s : str) :
  Forall P s -> Forall P (rstrip s).
Proof.
  induction 1 as [|c t Hc Ht IH]; [constructor|].
  rewrite rstrip_cons. destruct (rstrip t).
  - destruct (isspace c); now repeat constructor.
  - now constructor.
Qed.

Lemma Forall_strip (P : char -> Prop) (s : str) :
  Forall P s -> Forall P (strip s).
Proof. intros H. now apply Forall_rstrip, Forall_lstrip. Qed.

(** Trimming keeps an occurrence of a text that neither starts nor ends
    with a space. *)
Lemma occurs_in_strip (x s : str) :
  x <> [] -> head_kept x -> rstrip x = x ->
  occurs_in x s -> occurs_in x (strip s).
Proof.
  intros Hne Hh Hr (a & b & ->). unfold strip.
  assert (L : exists a', lstrip (a ++ x ++ b) = a' ++ x ++ b).
  { induction a as [|c a IH].
    - exists []. simpl app. apply lstrip_fixed.
      destruct x; [congruence | exact Hh].
    - simpl app. rewrite lstrip_cons. destruct (isspace c).
      + exact IH.
      + now exists (c :: a). }
  destruct L as [a' ->].
  assert (R : exists b', rstrip (x ++ b) = x ++ b').
  { rewrite rstrip_app. destruct (rstrip b) as [|y r].
    - exists []. now rewrite app_nil_r.
    - now exists (y :: r). }
  destruct R as [b' R].
  exists a', b'. rewrite rstrip_app, R.
  destruct (x ++ b') eqn:E; [|reflexivity].
  apply app_eq_nil in E. destruct E; congruence.
Qed.

Lemma occurs_in_app_r (x s t : str) : occurs_in x s -> occurs_in x (s ++ t).
Proof.
  intros (a & b & ->). exists a, (b ++ t). now rewrite <- !app_assoc.
Qed.

Lemma occurs_in_nil (x : str) : x <> [] -> ~ occurs_in x [].
Proof.
  intros Hne (a & b & H). symmetry in H.
  apply app_eq_nil in H. destruct H as [_ H].
  apply app_eq_nil in H. destruct H. congruence.
Qed.

(** ** Reading lines *)

Lemma translate_cons (c : char) (t : str) :
  translate_newlines (c :: t)
  = if (c =? CR)%N then
      LF :: match t with
            | c' :: t' => if (c' =? LF)%N then translate_newlines t'
                          else translate_newlines t
            | [] => []
            end
    else c :: translate_newlines t.
Proof. reflexivity. Qed.

Lemma keepends_cons (c : char) (t : str) :
  keepends (c :: t)
  = if (c =? LF)%N then [c] :: keepends t
    else match keepends t with
         | [] => [[c]]
         | l :: ls => (c :: l) :: ls
         end.
Proof. reflexivity. Qed.

Lemma LF_not_CR : LF <> CR.
Proof. discriminate. Qed.

Lemma translate_no_cr (s : str) :
  Forall (fun c => c <> CR) (translate_newlines s).
Proof.
  assert (G : forall n s, (List.length s <= n)%nat ->
                          Forall (fun c => c <> CR) (translate_newlines s)).
  { induction n as [|n IH]; intros [|c t] Hlen; try (now constructor).
    - simpl in Hlen. lia.
    - simpl in Hlen. rewrite translate_cons.
      destruct (c =? CR)%N eqn:E.
      + constructor; [exact LF_not_CR|].
        destruct t as [|c' t']; [constructor|].
        destruct (c' =? LF)%N; apply IH; simpl in *; lia.
      + constructor; [now apply N.eqb_neq | apply IH; lia]. }
  exact (G (List.length s) s (le_n _)).
Qed.

Lemma translate_fixed (s : str) :
  Forall (fun c => c <> CR) s -> translate_newlines s = s.
Proof.
  induction 1 as [|c t Hc _ IH]; [reflexivity|].
  rewrite translate_cons. apply N.eqb_neq in Hc. now rewrite Hc, IH.
Qed.

Lemma keepends_concat (s : str) : List.concat (keepends s) = s.
Proof.
  induction s as [|c t IH]; [reflexivity|].
  rewrite keepends_cons. destruct (c =? LF)%N.
  - simpl. now rewrite IH.
  - destruct (keepends t) as [|l ls]; simpl in *; now rewrite <- IH.
Qed.

Lemma keepends_shape (s : str) :
  Forall (fun l => exists body,
              Forall (fun c => c <> LF) body /\ (l = body \/ l = body ++ [LF]))
    (keepends s).
Proof.
  induction s as [|c t IH]; [constructor|].
  rewrite keepends_cons. destruct (c =? LF)%N eqn:E.
  - apply N.eqb_eq in E. subst c. constructor; [|exact IH].
    exists []. split; [constructor | now right].
  - apply N.eqb_neq in E. destruct (keepends t) as [|l ls].
    + constructor; [|constructor].
      exists [c]. split; [now repeat constructor | now left].
    + apply Forall_cons_iff in IH. destruct IH as [(body & Hb & Hl) Hls].
      constructor; [|exact Hls].
      exists (c :: body). split; [now constructor|].
      destruct Hl as [->| ->]; [now left | now right].
Qed.

(** The parser sees, of every line the run reads, a trimmed text with no
    line terminator inside. *)
Lemma readlines_kept (content : str) :
  Forall (fun l => no_newline (strip l)) (readlines content).
Proof.
  unfold readlines.
  pose proof (translate_no_cr content) as Hcr.
  rewrite <- (keepends_concat (translate_newlines content)) in Hcr.
  pose proof (keepends_shape (translate_newlines content)) as Hsh.
  induction Hsh as [|l ls (body & Hb & Hl) _ IH]; [constructor|].
  simpl in Hcr. apply Forall_app in Hcr. destruct Hcr as [Hl_cr Hls_cr].
  constructor; [|now apply IH].
  assert (Hbody : Forall (fun c => c <> LF /\ c <> CR) body).
  { apply Forall_and; [exact Hb|].
    destruct Hl as [->| ->]; [exact Hl_cr|].
    apply Forall_app in Hl_cr. tauto. }
  unfold no_newline. destruct Hl as [->| ->].
  - now apply Forall_strip.
  - rewrite strip_snoc_space by reflexivity. now apply Forall_strip.
Qed.

Lemma keepends_line (l rest : str) :
  Forall (fun c => c <> LF) l ->
  keepends (l ++ LF :: rest) = (l ++ [LF]) :: keepends rest.
Proof.
  induction 1 as [|c t Hc _ IH]; [reflexivity|].
  simpl app. rewrite keepends_cons, IH.
  apply N.eqb_neq in Hc. now rewrite Hc.
Qed.

Lemma write_lines_cons (l : str) (ls : list str) :
  write_lines (l :: ls) = l ++ LF :: write_lines ls.
Proof. unfold write_lines. simpl. now rewrite <- app_assoc. Qed.

Lemma readlines_write_lines (ls : list str) :
  Forall no_newline ls ->
  readlines (write_lines ls) = map (fun l => l ++ [LF]) ls.
Proof.
  intros H. unfold readlines. rewrite translate_fixed.
  - induction H as [|l ls Hl _ IH]; [reflexivity|].
    rewrite write_lines_cons, keepends_line, IH; [reflexivity|].
    eapply Forall_impl; [|exact Hl]. simpl. tauto.
  - induction H as [|l ls Hl _ IH]; [constructor|].
    rewrite write_lines_cons. apply Forall_app. split.
    + eapply Forall_impl; [|exact Hl]. simpl. tauto.
    + constructor; [exact LF_not_CR | exact IH].
Qed.

(** ** What the parser keeps, and reading back what a run wrote *)

Lemma kept_info_nonempty (i : str) : kept_info i -> truthy i = true.
Proof. intros [_ H]. destruct i; [discriminate | reflexivity]. Qed.

Lemma flush_kept (st : pstate) : kept_state st -> Forall kept_channel (flush st).
Proof.
  intros (Hcd & Hi & Hu). unfold flush.
  destruct (current_inf st) as [i|] eqn:E; [|exact Hcd].
  destruct (truthy i); [|exact Hcd].
  apply Forall_app. split; [exact Hcd|].
  constructor; [|constructor]. split; simpl; auto.
Qed.

Lemma parse_step_kept (st : pstate) (raw : str) :
  kept_state st -> no_newline (strip raw) -> kept_state (parse_step st raw).
Proof.
  intros Hst Hraw.
  assert (Hk : kept_line (strip raw)) by (split; [apply strip_idem | exact Hraw]).
  destruct (parse_step_cases st raw)
    as [(_ & _ & ->)|[(Hne & I & ->)|(Hne & I & ->)]].
  - exact Hst.
  - split; [|split]; simpl.
    + now apply flush_kept.
    + intros i [= <-]. now split.
    + constructor.
  - destruct Hst as (Hcd & Hi & Hu). split; [|split]; simpl; auto.
    apply Forall_app. split; [exact Hu|].
    constructor; [|constructor].
    split; [exact Hk | split; [exact Hne | exact I]].
Qed.

Lemma parse_channels_kept (lines : list str) :
  Forall (fun l => no_newline (strip l)) lines ->
  Forall kept_channel (parse_channels lines).
Proof.
  intros H. unfold parse_channels. apply flush_kept.
  assert (G : forall st, kept_state st ->
                         kept_state (fold_left parse_step lines st)).
  { induction H as [|raw rest Hraw _ IH]; intros st Hst; simpl; [exact Hst|].
    apply IH. now apply parse_step_kept. }
  apply G. split; [|split]; simpl; [constructor | discriminate | constructor].
Qed.

Lemma channels_of_kept (content : str) :
  Forall kept_channel (channels_of content).
Proof.
  unfold channels_of. apply parse_channels_kept.
  pose proof (readlines_kept content) as H.
  rewrite <- (firstn_skipn (start_index (readlines content))) in H.
  apply Forall_app in H. tauto.
Qed.

Lemma strip_written_line (l : str) : kept_line l -> strip (l ++ [LF]) = l.
Proof.
  intros [H _]. rewrite strip_snoc_space by reflexivity. exact H.
Qed.

Lemma parse_loop_content (us : list str) :
  Forall kept_content us ->
  forall cd ci acc,
    fold_left parse_step (map (fun l => l ++ [LF]) us) (PState cd ci acc)
    = PState cd ci (acc ++ us).
Proof.
  induction 1 as [|u us (Hk & Hne & Hi) _ IH]; intros cd ci acc; simpl.
  - now rewrite app_nil_r.
  - rewrite parse_step_content.
    + simpl. rewrite IH, (strip_written_line u Hk), <- app_assoc. reflexivity.
    + now rewrite (strip_written_line u Hk).
    + unfold is_info_line. now rewrite (strip_written_line u Hk).
Qed.

(** Parsing the lines written for a list of channels gives the channels
    back. *)
Lemma parse_loop_written (chans : list channel) :
  Forall kept_channel chans ->
  forall st,
    flush (fold_left parse_step
             (map (fun l => l ++ [LF]) (flat_map channel_text chans)) st)
    = flush st ++ chans.
Proof.
  induction 1 as [|ch rest ((Hk & Hi) & Hu) _ IH]; intros st; simpl.
  - now rewrite app_nil_r.
  - rewrite map_app, fold_left_app.
    rewrite parse_step_info
      by (unfold is_info_line; now rewrite (strip_written_line _ Hk)).
    rewrite (strip_written_line _ Hk).
    rewrite (parse_loop_content _ Hu), IH. simpl app.
    unfold flush at 1. simpl.
    rewrite (kept_info_nonempty (inf ch)) by now split.
    destruct ch. simpl. now rewrite <- app_assoc.
Qed.

Lemma sorted_channel_kept (keywords : list str) (reverse_mode : bool)
  (ch : channel) :
  kept_channel ch -> kept_channel (sorted_channel keywords reverse_mode ch).
Proof.
  intros [Hi Hu]. split; [exact Hi|]. simpl.
  eapply Permutation_Forall; [apply sorted_perm | exact Hu].
Qed.

Lemma sorted_channel_idem (keywords : list str) (reverse_mode : bool)
  (ch : channel) :
  sorted_channel keywords reverse_mode (sorted_channel keywords reverse_mode ch)
  = sorted_channel keywords reverse_mode ch.
Proof. unfold sorted_channel. simpl. now rewrite sorted_idempotent. Qed.

Lemma channel_text_kept (chans : list channel) :
  Forall kept_channel chans -> Forall no_newline (flat_map channel_text chans).
Proof.
  induction 1 as [|ch rest ((Hk & _) & Hu) _ IH]; simpl; [constructor|].
  constructor; [apply Hk|]. apply Forall_app. split; [|exact IH].
  eapply Forall_impl; [|exact Hu]. intros u ((_ & Hn) & _). exact Hn.
Qed.

(** *** A run without target filter and without rename string *)

Lemma write_channels_global (keywords : list str) (reverse_mode : bool)
  (chs : list channel) (f : str) :
  write_channels keywords reverse_mode None None f chs
  = Done (f ++ write_lines
                 (flat_map channel_text
                    (map (sorted_channel keywords reverse_mode) chs))).
Proof.
  revert f. induction chs as [|ch rest IH]; intros f; cbn [write_channels].
  - simpl. now rewrite app_nil_r.
  - rewrite (channel_lines_global keywords reverse_mode None None ch eq_refl).
    rewrite IH. cbn [map flat_map].
    rewrite write_lines_app, app_assoc. reflexivity.
Qed.

Lemma sorter_global_output (content keywords_str : str) (reverse_mode : bool) :
  sort_m3u_urls content keywords_str reverse_mode None None
  = Done (header_text content
          ++ write_lines
               (flat_map channel_text
                  (map (sorted_channel (parse_keywords keywords_str)
                          reverse_mode)
                     (channels_of content)))).
Proof. unfold sort_m3u_urls. apply write_channels_global. Qed.

(** ** The header line (C4) *)

Lemma EXTM3U_occurs_in_strip (s : str) :
  occurs_in EXTM3U s -> occurs_in EXTM3U (strip s).
Proof.
  apply occurs_in_strip; [discriminate | reflexivity | reflexivity].
Qed.

Lemma header_of_cases (lines : list str) :
  (exists l0 rest, lines = l0 :: rest /\ occurs_in EXTM3U l0
                   /\ header_of lines = Some (strip l0))
  \/ (header_of lines = None /\ ~ occurs_in EXTM3U (hd [] lines)).
Proof.
  destruct lines as [|l0 rest].
  - right. split; [reflexivity|]. apply occurs_in_nil. discriminate.
  - simpl. destruct (str_in EXTM3U l0) eqn:E.
    + left. exists l0, rest. repeat split. now apply str_in_occurs.
    + right. split; [reflexivity|]. now apply str_in_not_occurs.
Qed.

Lemma write_channels_prefix (keywords : list str) (reverse_mode : bool)
  (tcs : option (list str)) (new_name : option str) (chs : list channel) :
  forall f, exists tail,
    written (write_channels keywords reverse_mode tcs new_name f chs)
    = f ++ tail.
Proof.
  induction chs as [|ch rest IH]; intros f; cbn [write_channels].
  - exists []. simpl. now rewrite app_nil_r.
  - destruct (channel_lines keywords reverse_mode tcs new_name ch) as [ls|].
    + destruct (write_raises tcs new_name ch).
      * exists []. simpl. now rewrite app_nil_r.
      * destruct (IH (f ++ write_lines ls)) as [tail ->].
        exists (write_lines ls ++ tail). now rewrite app_assoc.
    + exists []. simpl. now rewrite app_nil_r.
Qed.

Lemma translate_line (h t : str) :
  Forall (fun c => c <> CR) h ->
  translate_newlines (h ++ LF :: t) = h ++ LF :: translate_newlines t.
Proof.
  induction 1 as [|c h Hc _ IH]; simpl app.
  - now rewrite translate_cons.
  - rewrite translate_cons, IH. apply N.eqb_neq in Hc. now rewrite Hc.
Qed.

Lemma first_line_written (h tail : str) :
  no_newline h -> first_line ((h ++ [LF]) ++ tail) = h ++ [LF].
Proof.
  intros Hh. unfold first_line, readlines.
  rewrite <- app_assoc. simpl app.
  rewrite translate_line
    by (eapply Forall_impl; [|exact Hh]; simpl; tauto).
  rewrite keepends_line
    by (eapply Forall_impl; [|exact Hh]; simpl; tauto).
  reflexivity.
Qed.

(** C4, as the code has it.  When the first line of the input, blank
    lines included, holds the directive marker, that line is the header:
    its trimmed text is the first line of the output and the channels are
    parsed from the lines after it. *)
Theorem header_line_kept (content keywords_str : str) (reverse_mode : bool)
  (target_channels_str new_name : option str) :
  occurs_in EXTM3U (first_line content) ->
  first_line (written (sort_m3u_urls content keywords_str reverse_mode
                         target_channels_str new_name))
  = strip (first_line content) ++ [LF]
  /\ channels_of content = parse_channels (tl (readlines content)).
Proof.
  intros Hm. unfold first_line in Hm.
  destruct (header_of_cases (readlines content))
    as [(l0 & rest & Hl & _ & Hh)|[_ Hn]]; [|contradiction].
  assert (Hk : no_newline (strip l0)).
  { pose proof (readlines_kept content) as K. rewrite Hl in K.
    now apply Forall_inv in K. }
  split.
  - unfold sort_m3u_urls. rewrite Hh.
    destruct (write_channels_prefix (parse_keywords keywords_str) reverse_mode
                (parse_targets target_channels_str) new_name
                (parse_channels
                   (skipn (start_index (readlines content)) (readlines content)))
                (strip l0 ++ [LF])) as [tail ->].
    rewrite (first_line_written _ tail Hk).
    unfold first_line at 1. now rewrite Hl.
  - unfold channels_of, start_index. rewrite Hh, Hl. reflexivity.
Qed.

(** ** A second pass over the output (C6) *)

Lemma header_text_eq (content : str) :
  header_text content
  = write_lines match header_of (readlines content) with
                | Some h => [h]
                | None => []
                end.
Proof.
  unfold header_text. destruct (header_of (readlines content)); [|reflexivity].
  unfold write_lines. simpl. now rewrite app_nil_r.
Qed.

Lemma map_sorted_channel_idem (keywords : list str) (reverse_mode : bool)
  (chs : list channel) :
  map (sorted_channel keywords reverse_mode)
    (map (sorted_channel keywords reverse_mode) chs)
  = map (sorted_channel keywords reverse_mode) chs.
Proof.
  rewrite map_map. apply map_ext. intros ch. apply sorted_channel_idem.
Qed.

Lemma parse_channels_written (chans : list channel) :
  Forall kept_channel chans ->
  parse_channels (map (fun l => l ++ [LF]) (flat_map channel_text chans))
  = chans.
Proof.
  intros H. unfold parse_channels. now rewrite (parse_loop_written chans H).
Qed.

(** C6, as the code has it.  Without target filter and without rename
    string a run completes, and a second run with the same keywords and
    mode on its output writes that output again, provided the first line
    of the output holds the directive marker only if the first line of
    the input does. *)
Theorem sorter_idempotent (content keywords_str : str) (reverse_mode : bool) :
  let out :=
    written (sort_m3u_urls content keywords_str reverse_mode None None) in
  (occurs_in EXTM3U (first_line out) -> occurs_in EXTM3U (first_line content)) ->
  sort_m3u_urls content keywords_str reverse_mode None None = Done out
  /\ sort_m3u_urls out keywords_str reverse_mode None None = Done out.
Proof.
  intros out. subst out. rewrite sorter_global_output. cbn [written].
  set (kws := parse_keywords keywords_str).
  set (chans := map (sorted_channel kws reverse_mode) (channels_of content)).
  assert (Hk : Forall kept_channel chans).
  { unfold chans. apply Forall_map.
    eapply Forall_impl; [|apply channels_of_kept].
    intros ch. apply sorted_channel_kept. }
  pose proof (channel_text_kept chans Hk) as Hbody.
  assert (Hidem : map (sorted_channel kws reverse_mode) chans = chans)
    by apply map_sorted_channel_idem.
  intros Hfirst. split; [reflexivity|].
  rewrite sorter_global_output. fold kws.
  rewrite (header_text_eq content) in *. rewrite <- write_lines_app in *.
  destruct (header_of_cases (readlines content))
    as [(l0 & rest & Hl & Hm & Hh)|[Hh Hn]]; rewrite Hh in *.
  - (* the input has a header line: it is read back as the header *)
    assert (Hkl : kept_line (strip l0)).
    { split; [apply strip_idem|].
      pose proof (readlines_kept content) as K. rewrite Hl in K.
      now apply Forall_inv in K. }
    assert (Hread :
      readlines (write_lines ([strip l0] ++ flat_map channel_text chans))
      = (strip l0 ++ [LF])
          :: map (fun l => l ++ [LF]) (flat_map channel_text chans)).
    { rewrite readlines_write_lines; [reflexivity|].
      constructor; [apply Hkl | exact Hbody]. }
    assert (Hhead :
      header_of (readlines
                   (write_lines ([strip l0] ++ flat_map channel_text chans)))
      = Some (strip l0)).
    { rewrite Hread. cbn [header_of].
      assert (E : str_in EXTM3U (strip l0 ++ [LF]) = true).
      { apply str_in_occurs, occurs_in_app_r, EXTM3U_occurs_in_strip, Hm. }
      rewrite E. now rewrite (strip_written_line _ Hkl). }
    rewrite header_text_eq, Hhead.
    unfold channels_of, start_index. rewrite Hhead, Hread. cbn [skipn].
    rewrite (parse_channels_written chans Hk), Hidem.
    now rewrite <- write_lines_app.
  - (* no header line: the first line written must not pass for one *)
    simpl app in *.
    assert (Hread :
      readlines (write_lines (flat_map channel_text chans))
      = map (fun l => l ++ [LF]) (flat_map channel_text chans)).
    { now apply readlines_write_lines. }
    assert (Hhead :
      header_of (readlines (write_lines (flat_map channel_text chans))) = None).
    { destruct (header_of_cases
                  (readlines (write_lines (flat_map channel_text chans))))
        as [(l1 & rest1 & Hl1 & Hm1 & _)|[Hnone _]]; [|exact Hnone].
      exfalso. apply Hn. apply Hfirst. unfold first_line. now rewrite Hl1. }
    rewrite header_text_eq, Hhead.
    unfold channels_of, start_index. rewrite Hhead, Hread. cbn [skipn].
    rewrite (parse_channels_written chans Hk), Hidem.
    reflexivity.
Qed.

(** ** Replacement templates *)

Lemma parse_template_plain (groups : nat) (t : str) :
  ~ In BACKSLASH t -> Re.parse_template groups t = Some (map Re.Lit t).
Proof.
  unfold Re.parse_template. induction t as [|c t IH]; intros H.
  - reflexivity.
  - cbn [Re.parse_template_from].
    destruct (c =? BACKSLASH)%N eqn:E.
    + apply N.eqb_eq in E. subst c. exfalso. apply H. now left.
    + rewrite IH by (intros Hin; apply H; now right). reflexivity.
Qed.

Lemma sub_plain (groups : nat) (key v s : str) :
  ~ In BACKSLASH key -> ~ In BACKSLASH v ->
  exists r, Re.sub groups key (key ++ v ++ [QUOTE]) s = Some r.
Proof.
  intros Hk Hv. unfold Re.sub. rewrite parse_template_plain.
  - eexists. reflexivity.
  - intros Hin. apply in_app_or in Hin. destruct Hin as [Hin|Hin]; [tauto|].
    apply in_app_or in Hin. destruct Hin as [Hin|[Hin|[]]]; [tauto|].
    discriminate Hin.
Qed.

(** ** The header tool (C3) *)

Lemma X_TVG_URL_plain : ~ In BACKSLASH HeaderTool.X_TVG_URL.
Proof.
  unfold HeaderTool.X_TVG_URL. simpl.
  intros H. repeat (destruct H as [H|H]; [discriminate H|]). exact H.
Qed.

(** The pattern on x-tvg-url cannot match inside the marker: a
    substitution leaves the marker at the start of the line. *)
Lemma sub_from_directive (ps : list Re.piece) (b : str) :
  Re.sub_from ps HeaderTool.X_TVG_URL 0 (HeaderTool.EXTM3U ++ b)
  = HeaderTool.EXTM3U ++ Re.sub_from ps HeaderTool.X_TVG_URL 0 b.
Proof. reflexivity. Qed.

Lemma is_directive_app (line x : str) :
  is_directive line = true -> is_directive (line ++ x) = true.
Proof.
  unfold is_directive. intros H. apply startswith_inv in H.
  destruct H as [b ->]. rewrite <- app_assoc. apply startswith_app.
Qed.

Lemma sub_directive (repl line r : str) :
  is_directive line = true ->
  Re.sub 1 HeaderTool.X_TVG_URL repl line = Some r ->
  is_directive r = true.
Proof.
  unfold is_directive, Re.sub. intros H E.
  destruct (Re.parse_template 1 repl) as [ps|]; [|discriminate].
  injection E as <-. apply startswith_inv in H. destruct H as [b ->].
  rewrite sub_from_directive. apply startswith_app.
Qed.

Lemma process_line_frame (rv fv : option str) (del : bool) (raw : str)
  (out : list str) :
  HeaderTool.process_line rv fv del raw = Some out ->
  if is_directive (rstrip raw)
  then Forall (fun l => is_directive l = true) out
  else out = [rstrip raw].
Proof.
  unfold HeaderTool.process_line.
  change (startswith (rstrip raw) HeaderTool.EXTM3U)
    with (is_directive (rstrip raw)).
  destruct (is_directive (rstrip raw)) eqn:D; [|congruence].
  assert (One : forall repl,
    option_map (fun new_line : str => [new_line])
      (Re.sub 1 HeaderTool.X_TVG_URL repl (rstrip raw)) = Some out ->
    Forall (fun l => is_directive l = true) out).
  { intros repl E.
    destruct (Re.sub 1 HeaderTool.X_TVG_URL repl (rstrip raw)) as [r|] eqn:S;
      [|discriminate].
    injection E as <-. constructor; [|constructor].
    exact (sub_directive repl (rstrip raw) r D S). }
  destruct del.
  - intros [= <-]. constructor.
  - destruct fv as [fv|].
    + destruct (Re.search HeaderTool.X_TVG_URL (rstrip raw)).
      * apply One.
      * intros [= <-]. constructor; [|constructor].
        now apply is_directive_app.
    + destruct rv as [rv|].
      * destruct (Re.search HeaderTool.X_TVG_URL (rstrip raw)) as [cur|].
        -- destruct (truthy (strip cur)); [apply One|].
           intros [= <-]. now repeat constructor.
        -- intros [= <-]. now repeat constructor.
      * intros [= <-]. now repeat constructor.
Qed.










(** ** The scan of a substitution *)

(** Passing over [n] characters is reading on after them. *)
Lemma sub_from_skip (ps : list Re.piece) (key : str) (n : nat) (s : str) :
  Re.sub_from ps key n s = Re.sub_from ps key 0 (skipn n s).
Proof.
  revert n. induction s as [|c t IH]; intros [|k]; try reflexivity.
  cbn [Re.sub_from skipn]. apply IH.
Qed.

Lemma parse_template_from_skip (groups n : nat) (t : str) :
  Re.parse_template_from groups n t
  = Re.parse_template_from groups 0 (skipn n t).
Proof.
  revert n. induction t as [|c t IH]; intros [|k]; try reflexivity.
  cbn [Re.parse_template_from skipn]. apply IH.
Qed.

Lemma take_until_found (stop : char) (v rest : str) :
  ~ In stop v -> Re.take_until stop (v ++ stop :: rest) = Some v.
Proof.
  induction v as [|c v IH]; intros H; cbn [app Re.take_until].
  - now rewrite N.eqb_refl.
  - destruct (c =? stop)%N eqn:E.
    + apply N.eqb_eq in E. exfalso. apply H. now left.
    + rewrite IH by (intros Hin; apply H; now right). reflexivity.
Qed.

Lemma take_until_split (stop : char) (s v : str) :
  Re.take_until stop s = Some v ->
  exists rest, s = v ++ stop :: rest /\ ~ In stop v.
Proof.
  revert v. induction s as [|c t IH]; intros v H; cbn [Re.take_until] in H.
  - discriminate.
  - destruct (c =? stop)%N eqn:E.
    + apply N.eqb_eq in E. subst c. injection H as <-.
      exists t. split; [reflexivity | intros []].
    + destruct (Re.take_until stop t) as [v'|]; [|discriminate].
      injection H as <-. destruct (IH v' eq_refl) as (rest & -> & Hv).
      exists rest. split; [reflexivity|].
      intros [Hc|Hin]; [|tauto]. apply N.eqb_neq in E. congruence.
Qed.

Lemma skipn_app_length (a b : str) : skipn (List.length a) (a ++ b) = b.
Proof. induction a as [|c a IH]; [reflexivity | exact IH]. Qed.

(** A match is the key, a value without quote, and a quote. *)
Lemma match_here_split (key s v : str) :
  Re.match_here key s = Some v ->
  exists rest, s = key ++ v ++ QUOTE :: rest /\ ~ In QUOTE v.
Proof.
  unfold Re.match_here. intros H.
  destruct (startswith s key) eqn:E; [|discriminate].
  apply startswith_inv in E. destruct E as [b ->].
  rewrite skipn_app_length in H.
  apply take_until_split in H. destruct H as (rest & -> & Hv).
  now exists rest.
Qed.

Lemma match_here_found (key v rest : str) :
  ~ In QUOTE v -> Re.match_here key (key ++ v ++ QUOTE :: rest) = Some v.
Proof.
  intros Hv. unfold Re.match_here.
  rewrite startswith_app, skipn_app_length. now apply take_until_found.
Qed.

(** At a match the scan writes the expanded template and reads on
    after the closing quote. *)
Lemma sub_from_hit (ps : list Re.piece) (key v rest : str) :
  key <> [] -> ~ In QUOTE v ->
  Re.sub_from ps key 0 (key ++ v ++ QUOTE :: rest)
  = Re.expand_template ps (key ++ v ++ [QUOTE]) v ++ Re.sub_from ps key 0 rest.
Proof.
  intros Hk Hv. destruct key as [|k key]; [congruence|].
  pose proof (match_here_found (k :: key) v rest Hv) as M.
  cbn [app] in *. cbn [Re.sub_from]. rewrite M. f_equal.
  rewrite sub_from_skip. f_equal.
  change (key ++ v ++ QUOTE :: rest) with (key ++ (v ++ QUOTE :: rest)).
  replace (v ++ QUOTE :: rest) with ((v ++ [QUOTE]) ++ rest)
    by (now rewrite <- app_assoc).
  rewrite app_assoc.
  replace (List.length (k :: key) + List.length v)%nat
    with (List.length (key ++ v ++ [QUOTE]))
    by (rewrite !length_app; simpl; lia).
  apply skipn_app_length.
Qed.

Lemma sub_from_miss (ps : list Re.piece) (key : str) (c : char) (t : str) :
  Re.match_here key (c :: t) = None ->
  Re.sub_from ps key 0 (c :: t) = c :: Re.sub_from ps key 0 t.
Proof. intros H. cbn [Re.sub_from]. now rewrite H. Qed.

Lemma expand_template_plain (t whole value : str) :
  Re.expand_template (map Re.Lit t) whole value = t.
Proof.
  unfold Re.expand_template. induction t as [|c t IH]; [reflexivity|].
  simpl. now rewrite IH.
Qed.

(** ** Renaming (C7) *)

(** The example of the specification: the attribute value and the
    display name both become the new name. *)
Example rename_inf_example :
  rename_inf Samples.old_info (lit "NewName")
  = Some (Samples.renamed_info (lit "NewName") (lit "NewName")).
Proof. vm_compute. reflexivity. Qed.

(** A name without backslash is never rejected, and the renamed line
    ends with a comma and the name. *)
Lemma rename_inf_plain (inf_line name : str) :
  ~ In BACKSLASH name ->
  exists before, rename_inf inf_line name = Some (before ++ [COMMA] ++ name).
Proof.
  intros Hn. unfold rename_inf.
  assert (E : exists l,
    (if str_in TVG_NAME inf_line
     then Re.sub 0 TVG_NAME (TVG_NAME ++ name ++ [QUOTE]) inf_line
     else Some inf_line) = Some l).
  { destruct (str_in TVG_NAME inf_line); [|eauto].
    apply sub_plain; [|exact Hn].
    unfold TVG_NAME. simpl.
    intros H. repeat (destruct H as [H|H]; [discriminate H|]). exact H. }
  destruct E as [l ->].
  destruct (str_in [COMMA] l); eauto.
Qed.

Lemma rsplit1_none (sep : char) (q : str) :
  ~ In sep q -> rsplit1 sep q = [q].
Proof.
  induction q as [|c t IH]; intros H; [reflexivity|].
  cbn [rsplit1]. rewrite IH by (intros Hin; apply H; now right).
  destruct (c =? sep)%N eqn:E; [|reflexivity].
  apply N.eqb_eq in E. exfalso. apply H. now left.
Qed.

(** [rsplit] cuts at the last separator. *)
Lemma rsplit1_last (sep : char) (p q : str) :
  ~ In sep q -> rsplit1 sep (p ++ sep :: q) = [p; q].
Proof.
  intros H. induction p as [|c p IH]; cbn [app rsplit1].
  - rewrite (rsplit1_none sep q H), N.eqb_refl. reflexivity.
  - now rewrite IH.
Qed.

Lemma str_in_char (c : char) (s : str) : str_in [c] s = true <-> In c s.
Proof.
  rewrite str_in_occurs. split.
  - intros (a & b & ->). apply in_or_app. right. now left.
  - intros H. apply in_split in H. destruct H as (a & b & ->). now exists a, b.
Qed.

(** The two ends of [rename_inf], given the line after the substitution
    on tvg-name. *)
Lemma rename_inf_display (inf_line name evolving : str) :
  (if str_in TVG_NAME inf_line
   then Re.sub 0 TVG_NAME (TVG_NAME ++ name ++ [QUOTE]) inf_line
   else Some inf_line) = Some evolving ->
  (forall p q, evolving = p ++ COMMA :: q -> ~ In COMMA q ->
               rename_inf inf_line name = Some (p ++ [COMMA] ++ name))
  /\ (~ In COMMA evolving ->
      rename_inf inf_line name = Some (evolving ++ [COMMA] ++ name)).
Proof.
  intros E. unfold rename_inf. rewrite E. split.
  - intros p q -> Hq.
    assert (C : str_in [COMMA] (p ++ COMMA :: q) = true).
    { apply str_in_char. apply in_or_app. right. now left. }
    rewrite C, (rsplit1_last COMMA p q Hq). reflexivity.
  - intros Hn. destruct (str_in [COMMA] evolving) eqn:C; [|reflexivity].
    apply str_in_char in C. contradiction.
Qed.

Lemma sub_from_no_key (ps : list Re.piece) (key s : str) :
  ~ occurs_in key s -> Re.sub_from ps key 0 s = s.
Proof.
  induction s as [|c t IH]; intros H; [reflexivity|].
  rewrite sub_from_miss.
  - rewrite IH; [reflexivity|].
    intros (a & b & ->). apply H. now exists (c :: a), b.
  - unfold Re.match_here. destruct (startswith (c :: t) key) eqn:E;
      [|reflexivity].
    exfalso. apply H. apply startswith_inv in E. destruct E as [b ->].
    now exists [], b.
Qed.

(** The first attribute of the line: nothing before it can start a
    match when no [t] comes before it. *)
Lemma sub_from_first_attribute (ps : list Re.piece) (a v b : str) :
  ~ In 116%N a -> ~ In QUOTE v ->
  Re.sub_from ps TVG_NAME 0 (a ++ TVG_NAME ++ v ++ QUOTE :: b)
  = a ++ Re.expand_template ps (TVG_NAME ++ v ++ [QUOTE]) v
      ++ Re.sub_from ps TVG_NAME 0 b.
Proof.
  intros Ha Hv. induction a as [|c a IH]; cbn [app].
  - apply sub_from_hit; [discriminate | exact Hv].
  - rewrite sub_from_miss.
    + rewrite IH by (intros Hin; apply Ha; now right). reflexivity.
    + unfold Re.match_here, TVG_NAME. cbn [startswith].
      destruct (c =? 116)%N eqn:E; [|reflexivity].
      apply N.eqb_eq in E. exfalso. apply Ha. now left.
Qed.

(** Renaming with a name without backslash, on a line with one tvg-name
    attribute: the quoted value becomes the name, then the text after
    the last comma becomes the name, or a comma and the name are put at
    the end of a line without comma. *)
Lemma rename_inf_plain_attribute (a v b name : str) :
  ~ In BACKSLASH name -> ~ In 116%N a -> ~ In QUOTE v ->
  ~ occurs_in TVG_NAME b ->
  let evolving := a ++ (TVG_NAME ++ name ++ [QUOTE]) ++ b in
  (forall p q, evolving = p ++ COMMA :: q -> ~ In COMMA q ->
               rename_inf (a ++ TVG_NAME ++ v ++ QUOTE :: b) name
               = Some (p ++ [COMMA] ++ name))
  /\ (~ In COMMA evolving ->
      rename_inf (a ++ TVG_NAME ++ v ++ QUOTE :: b) name
      = Some (evolving ++ [COMMA] ++ name)).
Proof.
  intros Hn Ha Hv Hb evolving. apply rename_inf_display.
  assert (O : str_in TVG_NAME (a ++ TVG_NAME ++ v ++ QUOTE :: b) = true).
  { apply str_in_occurs. now exists a, (v ++ QUOTE :: b). }
  rewrite O. unfold Re.sub. rewrite parse_template_plain.
  - rewrite sub_from_first_attribute by assumption.
    rewrite expand_template_plain, (sub_from_no_key _ TVG_NAME b Hb).
    reflexivity.
  - intros Hin. apply in_app_or in Hin. destruct Hin as [Hin|Hin].
    + unfold TVG_NAME in Hin. simpl in Hin.
      repeat (destruct Hin as [Hin|Hin]; [discriminate Hin|]). exact Hin.
    + apply in_app_or in Hin. destruct Hin as [Hin|[Hin|[]]]; [tauto|].
      discriminate Hin.
Qed.

(** On a line without the attribute the name is taken as it is, with
    or without backslash. *)
Lemma rename_inf_no_attribute (inf_line name : str) :
  ~ occurs_in TVG_NAME inf_line ->
  (forall p q, inf_line = p ++ COMMA :: q -> ~ In COMMA q ->
               rename_inf inf_line name = Some (p ++ [COMMA] ++ name))
  /\ (~ In COMMA inf_line ->
      rename_inf inf_line name = Some (inf_line ++ [COMMA] ++ name)).
Proof.
  intros H. apply rename_inf_display.
  apply str_in_not_occurs in H. now rewrite H.
Qed.

(** C7 at a name with a backslash.  The name is used as a replacement
    template: in the attribute a doubled backslash comes out as one,
    while the display name takes the name as it is; a backslash before
    a letter that is no escape makes the renaming raise, and the run
    stops with the header line alone in the output file. *)
Theorem rename_inf_backslash_name :
  rename_inf Samples.old_info (lit "A\\B")
  = Some (Samples.renamed_info (lit "A\B") (lit "A\\B"))
  /\ rename_inf Samples.old_info (lit "Fox\Sports") = None
  /\ sort_m3u_urls Samples.old_playlist (lit "cdn") false (Some (lit "Old"))
       (Some (lit "A\\B"))
     = Done (write_lines [lit "#EXTM3U";
                          Samples.renamed_info (lit "A\B") (lit "A\\B");
                          lit "http://a"])
  /\ sort_m3u_urls Samples.old_playlist (lit "cdn") false (Some (lit "Old"))
       (Some (lit "Fox\Sports"))
     = Failed (write_lines [lit "#EXTM3U"]).
Proof. vm_compute. repeat split. Qed.

(** ** Inputs on which the specification and the code differ *)

(** C1.  Without target filter and with a rename string, the channel is
    no target and its info line is written as it was, not renamed. *)
Lemma global_rename_counterexample :
  let content := write_lines [lit "#EXTINF:-1,Old"; lit "http://a"] in
  is_target (parse_targets None) (Channel (lit "#EXTINF:-1,Old") [lit "http://a"])
  = false
  /\ sort_m3u_urls content (lit "cdn") false None (Some (lit "New"))
     = Done content
  /\ rename_inf (lit "#EXTINF:-1,Old") (lit "New")
     = Some (lit "#EXTINF:-1,New").
Proof. vm_compute. repeat split. Qed.


(** C4.  The first line that is not blank holds the directive marker,
    but it is not the first line: no header is written and the output
    starts with the info line. *)
Lemma header_after_blank_line_counterexample :
  first_non_empty (readlines Samples.blank_first_playlist)
  = Some (lit "#EXTM3U" ++ [LF])
  /\ str_in EXTM3U (lit "#EXTM3U" ++ [LF]) = true
  /\ sort_m3u_urls Samples.blank_first_playlist (lit "cdn") false None None
     = Done (write_lines [lit "#EXTINF:-1,A"; lit "http://a"]).
Proof. vm_compute. repeat split. Qed.

(** C6.  The first pass writes a first line that holds the directive
    marker although the input had no header; the second pass takes it
    for the header and drops the line under it. *)
Lemma second_pass_counterexample :
  exists out,
    sort_m3u_urls Samples.marker_in_name_playlist (lit "cdn") false None None
    = Done out
    /\ sort_m3u_urls out (lit "cdn") false None None
       = Done (write_lines [lit "#EXTINF:-1,#EXTM3U news"])
    /\ sort_m3u_urls out (lit "cdn") false None None <> Done out.
Proof.
  exists (write_lines [lit "#EXTINF:-1,#EXTM3U news"; lit "http://a"]).
  vm_compute. repeat split. discriminate.
Qed.

(** ** The examples of the specification *)

Example normal_mode_example :
  sorted (get_sort_score Samples.cdn_keywords false) Samples.cdn_lines
  = [lit "http://x/cdn1/b"; lit "http://x/cdn2/a"; lit "http://x/other"].
Proof. vm_compute. reflexivity. Qed.

Example reverse_mode_example :
  sorted (get_sort_score Samples.cdn_keywords true) Samples.cdn_lines
  = [lit "http://x/other"; lit "http://x/cdn1/b"; lit "http://x/cdn2/a"].
Proof. vm_compute. reflexivity. Qed.

(** ** The theorems at sample inputs *)

Lemma global_mode_never_renames_witness :
  has_targets None = false
  /\ channel_lines Samples.cdn_keywords false None (Some (lit "New"))
       Samples.cnn_channel
     = Some (inf Samples.cnn_channel
             :: sorted (get_sort_score Samples.cdn_keywords false)
                  (urls Samples.cnn_channel)).
Proof.
  split; [reflexivity|].
  destruct (global_mode_never_renames Samples.cdn_keywords false None
              (Some (lit "New")) eq_refl) as [H _].
  apply H.
Defined.

Lemma non_url_lines_sort_last_witness :
  (Z.of_nat (List.length Samples.cdn_keywords) < 9999)%Z
  /\ get_sort_score Samples.cdn_keywords true (lit "#EXTVLCOPT:x") = 9999%Z
  /\ (get_sort_score Samples.cdn_keywords true (lit "http://x/cdn2/a") <= 2)%Z.
Proof.
  assert (L : (Z.of_nat (List.length Samples.cdn_keywords) < 9999)%Z)
    by (vm_compute; reflexivity).
  destruct (non_url_lines_sort_last Samples.cdn_keywords true L)
    as (H1 & H2 & _).
  split; [exact L|]. split.
  - apply H1. apply str_in_not_occurs. reflexivity.
  - apply H2. apply str_in_occurs. reflexivity.
Defined.

Lemma channel_sort_stable_witness :
  should_sort None Samples.cnn_channel = true
  /\ forall k,
       with_key (get_sort_score Samples.cdn_keywords false) k
         (written_urls Samples.cdn_keywords false None Samples.cnn_channel)
       = with_key (get_sort_score Samples.cdn_keywords false) k
           (urls Samples.cnn_channel).
Proof.
  split; [reflexivity|].
  destruct (channel_sort_stable Samples.cdn_keywords false None
              Samples.cnn_channel eq_refl) as (_ & _ & H).
  exact H.
Defined.

Lemma non_target_channel_untouched_witness :
  channel_lines Samples.cdn_keywords false (Some [lit "ESPN"])
    (Some (lit "New")) Samples.cnn_channel
  = Some (inf Samples.cnn_channel :: urls Samples.cnn_channel).
Proof.
  apply (non_target_channel_untouched Samples.cdn_keywords false [lit "ESPN"]
           (Some (lit "New")) Samples.cnn_channel).
  - discriminate.
  - intros tc [<-|[]]. apply str_in_not_occurs. reflexivity.
Defined.

Lemma header_line_kept_witness :
  occurs_in EXTM3U (first_line Samples.playlist)
  /\ first_line (written (sort_m3u_urls Samples.playlist (lit "cdn1,cdn2")
                            false (Some (lit "News")) (Some (lit "New"))))
     = lit "#EXTM3U" ++ [LF].
Proof.
  assert (H : occurs_in EXTM3U (first_line Samples.playlist))
    by (apply str_in_occurs; reflexivity).
  split; [exact H|].
  destruct (header_line_kept Samples.playlist (lit "cdn1,cdn2") false
              (Some (lit "News")) (Some (lit "New")) H) as [E _].
  rewrite E. reflexivity.
Defined.

Lemma sorter_idempotent_witness :
  let out :=
    written (sort_m3u_urls Samples.playlist (lit "cdn1,cdn2") false None None)
  in
  occurs_in EXTM3U (first_line Samples.playlist)
  /\ sort_m3u_urls Samples.playlist (lit "cdn1,cdn2") false None None
     = Done out
  /\ sort_m3u_urls out (lit "cdn1,cdn2") false None None = Done out.
Proof.
  intros out.
  assert (H : occurs_in EXTM3U (first_line Samples.playlist))
    by (apply str_in_occurs; reflexivity).
  split; [exact H|].
  apply (sorter_idempotent Samples.playlist (lit "cdn1,cdn2") false).
  intros _. exact H.
Defined.

(** ** The comma-separated arguments *)

Lemma not_In_Forall (c : char) (s : str) :
  ~ In c s <-> Forall (fun x => x <> c) s.
Proof.
  rewrite Forall_forall. split.
  - intros H x Hx ->. contradiction.
  - intros H Hin. exact (H c Hin eq_refl).
Qed.

Lemma str_split_no_sep (sep : char) (s : str) :
  Forall (fun p => ~ In sep p) (str_split sep s).
Proof.
  induction s as [|c t IH]; cbn [str_split].
  - constructor; [intros [] | constructor].
  - destruct (c =? sep)%N eqn:E.
    + constructor; [intros [] | exact IH].
    + apply N.eqb_neq in E. destruct (str_split sep t) as [|p ps].
      * constructor; [|constructor]. intros [H|[]]. congruence.
      * apply Forall_cons_iff in IH. destruct IH as [Hp Hps].
        constructor; [|exact Hps]. intros [H|H]; [congruence | tauto].
Qed.

Lemma strip_lacks (c : char) (s : str) : ~ In c s -> ~ In c (strip s).
Proof. rewrite !not_In_Forall. apply Forall_strip. Qed.

Lemma csv_items_clean (s : str) : Forall clean_item (csv_items s).
Proof.
  unfold csv_items. apply Forall_map.
  pose proof (str_split_no_sep COMMA s) as H.
  induction H as [|p ps Hp _ IH]; cbn [filter]; [constructor|].
  destruct (truthy (strip p)) eqn:E; [|exact IH].
  constructor; [|exact IH]. split; [|split].
  - destruct (strip p); [discriminate | congruence].
  - apply strip_idem.
  - now apply strip_lacks.
Qed.

(** The keyword list and the target list hold only entries that are not
    empty, are trimmed and have no comma; a target argument that is
    absent or empty gives no list at all. *)
Theorem csv_arguments_clean (keywords_str : str)
  (target_channels_str : option str) :
  Forall clean_item (parse_keywords keywords_str)
  /\ match parse_targets target_channels_str with
     | Some tcs =>
         Forall clean_item tcs
         /\ exists s, target_channels_str = Some s /\ s <> []
     | None => target_channels_str = None \/ target_channels_str = Some []
     end.
Proof.
  split; [apply csv_items_clean|].
  destruct target_channels_str as [[|c s]|]; simpl.
  - now right.
  - split; [apply csv_items_clean|]. exists (c :: s). split; congruence.
  - now left.
Qed.

(** ** The order a sort gives, group by group *)

Section SortedGroups.
Context {A : Type} (key : A -> Z).

Lemma insert_by_front (x : A) (r : list A) :
  Forall (fun y => (key x <= key y)%Z) r -> insert_by key x r = x :: r.
Proof.
  destruct r as [|y r]; [reflexivity|]. intros H. apply Forall_inv in H.
  simpl. apply Z.leb_le in H. now rewrite H.
Qed.

Lemma insert_by_after (x : A) (g r : list A) :
  Forall (fun y => (key y < key x)%Z) g ->
  insert_by key x (g ++ r) = g ++ insert_by key x r.
Proof.
  induction 1 as [|y g Hy _ IH]; [reflexivity|].
  simpl. apply Z.leb_gt in Hy. now rewrite Hy, IH.
Qed.

Lemma with_key_keys (k : Z) (l : list A) :
  Forall (fun y => key y = k) (with_key key k l).
Proof.
  unfold with_key. apply Forall_forall. intros y Hy.
  apply filter_In in Hy. now apply Z.eqb_eq.
Qed.

Lemma with_key_cons (k : Z) (x : A) (l : list A) :
  with_key key k (x :: l)
  = if (key x =? k)%Z then x :: with_key key k l else with_key key k l.
Proof. reflexivity. Qed.

Lemma groups_keys (ks : list Z) (l : list A) :
  Forall (fun y => In (key y) ks) (flat_map (fun k => with_key key k l) ks).
Proof.
  apply Forall_forall. intros y Hy. apply in_flat_map in Hy.
  destruct Hy as (k & Hk & Hy).
  pose proof (with_key_keys k l) as F. rewrite Forall_forall in F.
  now rewrite (F y Hy).
Qed.

Lemma groups_skip (ks : list Z) (x : A) (l : list A) :
  ~ In (key x) ks ->
  flat_map (fun k => with_key key k (x :: l)) ks
  = flat_map (fun k => with_key key k l) ks.
Proof.
  induction ks as [|k ks IH]; intros H; [reflexivity|].
  cbn [flat_map]. rewrite with_key_cons.
  destruct (key x =? k)%Z eqn:E.
  - apply Z.eqb_eq in E. exfalso. apply H. now left.
  - rewrite IH; [reflexivity|]. intros Hin. apply H. now right.
Qed.

(** Putting [x] into the groups of [l] gives the groups of [x :: l]. *)
Lemma insert_groups (ks : list Z) :
  StronglySorted Z.lt ks ->
  forall x l,
    In (key x) ks ->
    insert_by key x (flat_map (fun k => with_key key k l) ks)
    = flat_map (fun k => with_key key k (x :: l)) ks.
Proof.
  induction 1 as [|k ks Hs IH Hk]; intros x l Hin; [destruct Hin|].
  cbn [flat_map]. rewrite with_key_cons.
  rewrite Forall_forall in Hk.
  destruct (key x =? k)%Z eqn:E.
  - apply Z.eqb_eq in E.
    rewrite groups_skip
      by (intros Hx; specialize (Hk _ Hx); lia).
    apply insert_by_front. apply Forall_app. split.
    + eapply Forall_impl; [|apply with_key_keys]. simpl. intros y Hy. lia.
    + eapply Forall_impl; [|apply groups_keys]. simpl. intros y Hy.
      specialize (Hk _ Hy). lia.
  - apply Z.eqb_neq in E. destruct Hin as [Hin|Hin]; [congruence|].
    rewrite insert_by_after.
    + now rewrite IH.
    + eapply Forall_impl; [|apply with_key_keys]. simpl. intros y Hy.
      specialize (Hk _ Hin). lia.
Qed.

Lemma groups_nil (ks : list Z) :
  flat_map (fun k => with_key key k (@nil A)) ks = [].
Proof. induction ks as [|k ks IH]; [reflexivity | exact IH]. Qed.

(** A sorted list is its groups of equal key, one after the other in
    the order of the keys, each in the order of the input. *)
Lemma sorted_groups (ks : list Z) (l : list A) :
  StronglySorted Z.lt ks ->
  Forall (fun x => In (key x) ks) l ->
  sorted key l = flat_map (fun k => with_key key k l) ks.
Proof.
  intros Hks. induction 1 as [|x l Hx _ IH]; cbn [sorted fold_right].
  - now rewrite groups_nil.
  - change (fold_right (insert_by key) [] l) with (sorted key l).
    rewrite IH. now apply insert_groups.
Qed.
End SortedGroups.

Lemma flat_map_map {A B C : Type} (f : B -> list C) (g : A -> B) (l : list A) :
  flat_map f (map g l) = flat_map (fun x => f (g x)) l.
Proof. induction l as [|x l IH]; [reflexivity|]. simpl. now rewrite IH. Qed.

Lemma flat_map_ext_In {A B : Type} (f g : A -> list B) (l : list A) :
  (forall x, In x l -> f x = g x) -> flat_map f l = flat_map g l.
Proof.
  induction l as [|x l IH]; intros H; [reflexivity|].
  simpl. rewrite (H x) by now left. rewrite IH; [reflexivity|].
  intros y Hy. apply H. now right.
Qed.

Lemma sorted_lt_map_seq (f : nat -> Z) (n a : nat) :
  (forall i j, (i < j)%nat -> (f i < f j)%Z) ->
  StronglySorted Z.lt (map f (seq a n)).
Proof.
  intros Hf. revert a. induction n as [|n IH]; intros a; simpl.
  - constructor.
  - constructor; [apply IH|].
    apply Forall_forall. intros y Hy. apply in_map_iff in Hy.
    destruct Hy as (i & <- & Hi). apply in_seq in Hi. apply Hf. lia.
Qed.

Lemma sorted_lt_app (l1 l2 : list Z) :
  StronglySorted Z.lt l1 -> StronglySorted Z.lt l2 ->
  (forall x y, In x l1 -> In y l2 -> (x < y)%Z) ->
  StronglySorted Z.lt (l1 ++ l2).
Proof.
  induction 1 as [|x l1 Hs IH Hx]; intros H2 H; [exact H2|].
  simpl. constructor.
  - apply IH; [exact H2|]. intros a b Ha Hb. apply H; [now right | exact Hb].
  - apply Forall_app. split; [exact Hx|].
    apply Forall_forall. intros y Hy. apply H; [now left | exact Hy].
Qed.

(** *** The values of the score *)

Lemma first_match_bound (keywords : list str) (item : str) (i : nat) :
  first_match keywords item = Some i -> (i < List.length keywords)%nat.
Proof.
  revert i. induction keywords as [|kw rest IH]; intros i H;
    cbn [first_match] in H; [discriminate|].
  destruct (str_in kw item).
  - injection H as <-. simpl. lia.
  - destruct (first_match rest item) as [j|]; [|discriminate].
    injection H as <-. specialize (IH j eq_refl). simpl. lia.
Qed.

Lemma score_scan_first_match (reverse_mode : bool) (len index : Z)
  (keywords : list str) (item : str) :
  score_scan reverse_mode len index keywords item
  = match first_match keywords item with
    | Some i => if reverse_mode then (index + Z.of_nat i + 1)%Z
                else (index + Z.of_nat i - len)%Z
    | None => 0%Z
    end.
Proof.
  revert index. induction keywords as [|kw rest IH]; intros index;
    cbn [score_scan first_match]; [reflexivity|].
  destruct (str_in kw item).
  - destruct reverse_mode; f_equal; lia.
  - rewrite IH. destruct (first_match rest item) as [j|]; [|reflexivity].
    cbn [option_map]. destruct reverse_mode; lia.
Qed.

Lemma score_by_first_match (keywords : list str) (reverse_mode : bool)
  (item : str) :
  get_sort_score keywords reverse_mode item
  = if str_in SCHEME_SEP item then
      match first_match keywords item with
      | Some i => if reverse_mode then (Z.of_nat i + 1)%Z
                  else (Z.of_nat i - Z.of_nat (List.length keywords))%Z
      | None => 0%Z
      end
    else 9999%Z.
Proof.
  unfold get_sort_score. destruct (str_in SCHEME_SEP item); [|reflexivity].
  cbn [negb]. rewrite score_scan_first_match.
  destruct (first_match keywords item); [|reflexivity].
  destruct reverse_mode; f_equal; lia.
Qed.

Lemma score_in_values (keywords : list str) (reverse_mode : bool) (item : str) :
  In (get_sort_score keywords reverse_mode item)
    (score_values reverse_mode (List.length keywords)).
Proof.
  rewrite score_by_first_match. unfold score_values.
  destruct (str_in SCHEME_SEP item).
  - destruct (first_match keywords item) as [i|] eqn:E.
    + apply first_match_bound in E. destruct reverse_mode.
      * right. apply in_or_app. left.
        apply in_map_iff. exists i. split; [reflexivity|]. apply in_seq. lia.
      * apply in_or_app. left.
        apply in_map_iff. exists i. split; [reflexivity|]. apply in_seq. lia.
    + destruct reverse_mode; [now left|].
      apply in_or_app. right. now left.
  - destruct reverse_mode.
    + right. apply in_or_app. right. now left.
    + apply in_or_app. right. right. now left.
Qed.

Lemma score_values_sorted (reverse_mode : bool) (n : nat) :
  (reverse_mode = true -> (Z.of_nat n < 9999)%Z) ->
  StronglySorted Z.lt (score_values reverse_mode n).
Proof.
  intros Hn. unfold score_values. destruct reverse_mode.
  - specialize (Hn eq_refl). constructor.
    + apply sorted_lt_app.
      * apply sorted_lt_map_seq. intros i j Hij. lia.
      * repeat constructor.
      * intros x y Hx [<-|[]]. apply in_map_iff in Hx.
        destruct Hx as (i & <- & Hi). apply in_seq in Hi. lia.
    + apply Forall_app. split.
      * apply Forall_forall. intros x Hx. apply in_map_iff in Hx.
        destruct Hx as (i & <- & Hi). lia.
      * repeat constructor.
  - apply sorted_lt_app.
    + apply sorted_lt_map_seq. intros i j Hij. lia.
    + repeat constructor.
    + intros x y Hx Hy. apply in_map_iff in Hx.
      destruct Hx as (i & <- & Hi). apply in_seq in Hi.
      destruct Hy as [<-|[<-|[]]]; lia.
Qed.

Lemma with_key_matched (keywords : list str) (reverse_mode : bool)
  (l : list str) (i : nat) :
  (i < List.length keywords)%nat ->
  (reverse_mode = true -> (Z.of_nat (List.length keywords) < 9999)%Z) ->
  with_key (get_sort_score keywords reverse_mode)
    (if reverse_mode then Z.of_nat i + 1
     else Z.of_nat i - Z.of_nat (List.length keywords))%Z l
  = matched_by keywords i l.
Proof.
  intros Hi Hn. unfold with_key, matched_by. apply filter_ext. intros item.
  rewrite score_by_first_match. unfold is_first_match.
  destruct (str_in SCHEME_SEP item); cbn [andb].
  - destruct (first_match keywords item) as [j|] eqn:E.
    + destruct (Nat.eqb_spec j i) as [->|Hne].
      * apply Z.eqb_eq. reflexivity.
      * apply Z.eqb_neq. destruct reverse_mode; lia.
    + apply Z.eqb_neq. destruct reverse_mode; lia.
  - apply Z.eqb_neq. destruct reverse_mode; [specialize (Hn eq_refl)|]; lia.
Qed.

Lemma with_key_unmatched (keywords : list str) (reverse_mode : bool)
  (l : list str) :
  with_key (get_sort_score keywords reverse_mode) 0 l
  = unmatched_urls keywords l.
Proof.
  unfold with_key, unmatched_urls. apply filter_ext. intros item.
  rewrite score_by_first_match. unfold has_match.
  destruct (str_in SCHEME_SEP item); cbn [andb]; [|reflexivity].
  destruct (first_match keywords item) as [j|] eqn:E; [|reflexivity].
  apply first_match_bound in E. cbn [negb].
  apply Z.eqb_neq. destruct reverse_mode; lia.
Qed.

Lemma with_key_other (keywords : list str) (reverse_mode : bool)
  (l : list str) :
  (reverse_mode = true -> (Z.of_nat (List.length keywords) < 9999)%Z) ->
  with_key (get_sort_score keywords reverse_mode) 9999 l = other_lines l.
Proof.
  intros Hn. unfold with_key, other_lines. apply filter_ext. intros item.
  rewrite score_by_first_match.
  destruct (str_in SCHEME_SEP item); cbn [negb]; [|reflexivity].
  destruct (first_match keywords item) as [j|] eqn:E.
  - apply first_match_bound in E. apply Z.eqb_neq.
    destruct reverse_mode; [specialize (Hn eq_refl)|]; lia.
  - reflexivity.
Qed.

Lemma groups_by_priority (keywords : list str) (reverse_mode : bool)
  (l : list str) :
  (reverse_mode = true -> (Z.of_nat (List.length keywords) < 9999)%Z) ->
  flat_map (fun k => with_key (get_sort_score keywords reverse_mode) k l)
    (map (fun i => if reverse_mode then Z.of_nat i + 1
                   else Z.of_nat i - Z.of_nat (List.length keywords))%Z
       (seq 0 (List.length keywords)))
  = by_priority keywords l.
Proof.
  intros Hn. rewrite flat_map_map. unfold by_priority.
  apply flat_map_ext_In. intros i Hi. apply in_seq in Hi.
  apply with_key_matched; [lia | exact Hn].
Qed.

Lemma sorted_by_score (keywords : list str) (reverse_mode : bool)
  (l : list str) :
  (reverse_mode = true -> (Z.of_nat (List.length keywords) < 9999)%Z) ->
  sorted (get_sort_score keywords reverse_mode) l
  = flat_map (fun k => with_key (get_sort_score keywords reverse_mode) k l)
      (score_values reverse_mode (List.length keywords)).
Proof.
  intros Hn. apply sorted_groups.
  - now apply score_values_sorted.
  - apply Forall_forall. intros item _. apply score_in_values.
Qed.

(** In normal mode the sorted lines of a channel are: the URLs in which
    a keyword occurs, grouped by their first keyword in the order of the
    keyword list, then the URLs without keyword, then the lines that are
    no URLs; inside each group the lines keep their input order. *)
Theorem normal_mode_order (keywords : list str)
  (target_channels : option (list str)) (ch : channel) :
  should_sort target_channels ch = true ->
  written_urls keywords false target_channels ch
  = by_priority keywords (urls ch)
    ++ unmatched_urls keywords (urls ch)
    ++ other_lines (urls ch).
Proof.
  intros Hs. rewrite (written_urls_sorted keywords false _ _ Hs).
  rewrite sorted_by_score by discriminate.
  unfold score_values. rewrite flat_map_app.
  rewrite (groups_by_priority keywords false) by discriminate.
  cbn [flat_map]. rewrite app_nil_r.
  rewrite with_key_unmatched, with_key_other by discriminate. reflexivity.
Qed.

(** In reverse mode, with fewer than 9999 keywords, the URLs without
    keyword come first, then the URLs in which a keyword occurs, grouped
    by their first keyword in the order of the keyword list, then the
    lines that are no URLs. *)
Theorem reverse_mode_order (keywords : list str)
  (target_channels : option (list str)) (ch : channel) :
  (Z.of_nat (List.length keywords) < 9999)%Z ->
  should_sort target_channels ch = true ->
  written_urls keywords true target_channels ch
  = unmatched_urls keywords (urls ch)
    ++ by_priority keywords (urls ch)
    ++ other_lines (urls ch).
Proof.
  intros Hn Hs. rewrite (written_urls_sorted keywords true _ _ Hs).
  rewrite sorted_by_score by (intros _; exact Hn).
  unfold score_values. cbn [flat_map]. rewrite flat_map_app.
  rewrite (groups_by_priority keywords true) by (intros _; exact Hn).
  cbn [flat_map]. rewrite app_nil_r.
  rewrite with_key_unmatched, with_key_other by (intros _; exact Hn).
  reflexivity.
Qed.

(** ** Renaming keeps an info line an info line *)

Lemma rsplit1_split (sep : char) (s : str) :
  In sep s ->
  exists p q, rsplit1 sep s = [p; q] /\ s = p ++ sep :: q /\ ~ In sep q.
Proof.
  induction s as [|c t IH]; intros H; [destruct H|].
  destruct (in_dec N.eq_dec sep t) as [Hin|Hout].
  - destruct (IH Hin) as (p & q & E & -> & Hq).
    exists (c :: p), q. cbn [rsplit1]. rewrite E. now repeat split.
  - destruct H as [->|H]; [|contradiction].
    exists [], t. cbn [rsplit1].
    rewrite (rsplit1_none sep t Hout), N.eqb_refl. now repeat split.
Qed.

Lemma startswith_before_sep (sep : char) (P p q : str) :
  ~ In sep P -> startswith (p ++ sep :: q) P = true -> startswith p P = true.
Proof.
  revert p. induction P as [|a P IH]; intros p Hn H; [reflexivity|].
  destruct p as [|c p]; cbn [app startswith] in *.
  - apply andb_true_iff in H. destruct H as [H _]. apply N.eqb_eq in H.
    exfalso. apply Hn. now left.
  - apply andb_true_iff in H. destruct H as [Hc H]. rewrite Hc. cbn [andb].
    apply IH; [|exact H]. intros Hin. apply Hn. now right.
Qed.

Lemma startswith_app_l (s x P : str) :
  startswith s P = true -> startswith (s ++ x) P = true.
Proof.
  intros H. apply startswith_inv in H. destruct H as [b ->].
  rewrite <- app_assoc. apply startswith_app.
Qed.

Lemma sub_from_info_marker (ps : list Re.piece) (b : str) :
  Re.sub_from ps TVG_NAME 0 (EXTINF ++ b)
  = EXTINF ++ Re.sub_from ps TVG_NAME 0 b.
Proof. reflexivity. Qed.

Lemma rename_inf_marker (inf_line name renamed : str) :
  startswith inf_line EXTINF = true ->
  rename_inf inf_line name = Some renamed ->
  startswith renamed EXTINF = true.
Proof.
  intros Hm. unfold rename_inf.
  assert (E : forall l,
    (if str_in TVG_NAME inf_line
     then Re.sub 0 TVG_NAME (TVG_NAME ++ name ++ [QUOTE]) inf_line
     else Some inf_line) = Some l -> startswith l EXTINF = true).
  { intros l. destruct (str_in TVG_NAME inf_line); [|congruence].
    unfold Re.sub.
    destruct (Re.parse_template 0 (TVG_NAME ++ name ++ [QUOTE])) as [ps|];
      [|discriminate].
    intros [= <-]. apply startswith_inv in Hm. destruct Hm as [b ->].
    rewrite sub_from_info_marker. apply startswith_app. }
  destruct (if str_in TVG_NAME inf_line
            then Re.sub 0 TVG_NAME (TVG_NAME ++ name ++ [QUOTE]) inf_line
            else Some inf_line) as [l|]; [|discriminate].
  specialize (E l eq_refl).
  destruct (str_in [COMMA] l) eqn:C; intros [= <-].
  - apply str_in_char in C.
    destruct (rsplit1_split COMMA l C) as (p & q & -> & -> & _).
    cbn [hd]. apply startswith_app_l.
    apply (startswith_before_sep COMMA EXTINF p q); [|exact E].
    unfold EXTINF. simpl.
    intros H. repeat (destruct H as [H|H]; [discriminate H|]). exact H.
  - now apply startswith_app_l.
Qed.

(** Whatever the name, a renamed info line still starts with the info
    marker: the pattern on tvg-name cannot match inside the marker and
    the marker holds no comma. *)
Theorem rename_inf_keeps_marker (inf_line name renamed : str) :
  startswith inf_line EXTINF = true ->
  rename_inf inf_line name = Some renamed ->
  startswith renamed EXTINF = true.
Proof. apply rename_inf_marker. Qed.

(** ** Runs of the sorter: records, completion, failure *)

(** Every record the parser builds holds kept lines only: the info line
    is trimmed, on one line, and starts with the info marker; every
    content line is trimmed, on one line, not empty, and does not start
    with the info marker.  Blank lines reach no record. *)
Theorem parsed_records_clean (content : str) :
  Forall kept_channel (channels_of content)
  /\ Forall (fun ch => ~ In [] (urls ch) /\ inf ch <> []) (channels_of content).
Proof.
  pose proof (channels_of_kept content) as H. split; [exact H|].
  eapply Forall_impl; [|exact H]. intros ch [Hi Hu]. split.
  - intros Hin. rewrite Forall_forall in Hu.
    destruct (Hu [] Hin) as (_ & Hne & _). congruence.
  - intros E. apply kept_info_nonempty in Hi. rewrite E in Hi. discriminate.
Qed.

Lemma occurs_in_before (x s : str) (c : char) :
  x <> [] -> ~ In c x -> occurs_in x (s ++ [c]) -> occurs_in x s.
Proof.
  intros Hne Hc (a & b & E).
  destruct b as [|b0 b'] using rev_ind.
  - rewrite app_nil_r in E.
    destruct x as [|x0 x'] using rev_ind; [congruence|].
    rewrite app_assoc in E. apply app_inj_tail in E. destruct E as [_ ->].
    exfalso. apply Hc. apply in_or_app. right. now left.
  - rewrite !app_assoc in E. apply app_inj_tail in E. destruct E as [-> _].
    exists a, b'. now rewrite app_assoc.
Qed.

Lemma header_of_written (ls : list str) :
  ~ occurs_in EXTM3U (hd [] ls) ->
  header_of (map (fun l => l ++ [LF]) ls) = None.
Proof.
  intros H. destruct ls as [|l0 rest]; [reflexivity|]. cbn [map header_of].
  assert (E : str_in EXTM3U (l0 ++ [LF]) = false).
  { apply str_in_not_occurs. intros Ho. apply H. cbn [hd].
    apply (occurs_in_before EXTM3U l0 LF); [discriminate| |exact Ho].
    unfold EXTM3U. simpl.
    intros Hin. repeat (destruct Hin as [Hin|Hin]; [discriminate Hin|]).
    exact Hin. }
  now rewrite E.
Qed.

(** A run reads back the records it wrote: the text made of the info
    line and the content lines of records of kept lines, one per line,
    is parsed by a run into these records, provided the info line of the
    first record does not hold the directive marker (it would be taken
    for the header line). *)
Theorem written_records_parse_back (chans : list channel) :
  Forall kept_channel chans ->
  (forall ch rest, chans = ch :: rest -> ~ occurs_in EXTM3U (inf ch)) ->
  channels_of (write_lines (flat_map channel_text chans)) = chans.
Proof.
  intros H Hfirst. unfold channels_of, start_index.
  rewrite readlines_write_lines by now apply channel_text_kept.
  rewrite header_of_written.
  - cbn [skipn]. now apply parse_channels_written.
  - destruct chans as [|ch rest].
    + apply occurs_in_nil. discriminate.
    + cbn [flat_map channel_text app hd]. now apply (Hfirst ch rest).
Qed.

Lemma parse_channels_no_info (lines : list str) :
  Forall (fun l => is_info_line l = false) lines -> parse_channels lines = [].
Proof.
  intros H. unfold parse_channels.
  destruct (parse_loop_prefix lines [] H) as [us ->]. reflexivity.
Qed.

(** An input without info line after the header gives an output with
    the header line alone: every URL of the input is dropped. *)
Theorem no_info_line_no_output (content keywords_str : str)
  (reverse_mode : bool) (target_channels_str new_name : option str) :
  Forall (fun l => is_info_line l = false)
    (skipn (start_index (readlines content)) (readlines content)) ->
  sort_m3u_urls content keywords_str reverse_mode target_channels_str new_name
  = Done (header_text content).
Proof.
  intros H. unfold sort_m3u_urls. rewrite (parse_channels_no_info _ H).
  reflexivity.
Qed.

Lemma channel_lines_some (keywords : list str) (reverse_mode : bool)
  (tcs : option (list str)) (new_name : option str) (ch : channel) :
  plain new_name \/ is_target tcs ch = false ->
  exists ls, channel_lines keywords reverse_mode tcs new_name ch = Some ls.
Proof.
  intros H. unfold channel_lines.
  assert (E : exists fi, final_inf tcs new_name ch = Some fi).
  { destruct H as [H|H].
    - unfold final_inf. destruct new_name as [name|]; [|eauto].
      destruct (is_target tcs ch && truthy name); [|eauto].
      destruct (rename_inf_plain (inf ch) name H) as [before ->]. eauto.
    - rewrite (final_inf_not_target tcs new_name ch H). eauto. }
  destruct E as [fi ->]. eauto.
Qed.

Lemma can_encode_encodable (s : str) : can_encode s = true <-> encodable s.
Proof.
  unfold can_encode, encodable. rewrite forallb_forall, Forall_forall.
  split; intros H c Hc; specialize (H c Hc).
  - apply orb_true_iff in H. destruct H as [H|H]; apply N.ltb_lt in H; tauto.
  - apply orb_true_iff. destruct H as [H|H]; apply N.ltb_lt in H; tauto.
Qed.

Lemma write_raises_usable (tcs : option (list str)) (new_name : option str)
  (ch : channel) :
  usable_name new_name -> write_raises tcs new_name ch = false.
Proof.
  unfold usable_name, write_raises. destruct new_name as [name|]; [|reflexivity].
  intros [_ He]. apply can_encode_encodable in He. rewrite He.
  now rewrite andb_false_r.
Qed.

Lemma usable_plain (new_name : option str) :
  usable_name new_name -> plain new_name.
Proof. destruct new_name as [name|]; simpl; tauto. Qed.

Lemma write_channels_total (keywords : list str) (reverse_mode : bool)
  (tcs : option (list str)) (new_name : option str) (chs : list channel) :
  Forall (fun ch =>
            (exists ls,
               channel_lines keywords reverse_mode tcs new_name ch = Some ls)
            /\ write_raises tcs new_name ch = false) chs ->
  forall f, exists out,
    write_channels keywords reverse_mode tcs new_name f chs = Done out.
Proof.
  induction 1 as [|ch rest [[ls E] W] _ IH]; intros f; cbn [write_channels].
  - eauto.
  - rewrite E, W. apply IH.
Qed.

Lemma write_channels_usable (keywords : list str) (reverse_mode : bool)
  (tcs : option (list str)) (new_name : option str) (chs : list channel)
  (f : str) :
  usable_name new_name \/ has_targets tcs = false ->
  exists out, write_channels keywords reverse_mode tcs new_name f chs = Done out.
Proof.
  intros H. apply write_channels_total.
  apply Forall_forall. intros ch _. split.
  - apply channel_lines_some.
    destruct H as [H|H]; [left; now apply usable_plain | right].
    now apply is_target_global.
  - destruct H as [H|H]; [now apply write_raises_usable|].
    apply write_raises_not_target. now apply is_target_global.
Qed.

(** A run whose rename string holds no backslash and no surrogate code
    point, or that has no target filter, always completes: neither the
    renaming nor a write raises. *)
Theorem sorter_completes (content keywords_str : str) (reverse_mode : bool)
  (target_channels_str new_name : option str) :
  usable_name new_name
  \/ has_targets (parse_targets target_channels_str) = false ->
  exists out,
    sort_m3u_urls content keywords_str reverse_mode target_channels_str
      new_name = Done out.
Proof.
  intros H. unfold sort_m3u_urls. now apply write_channels_usable.
Qed.

Lemma write_channels_failed (keywords : list str) (reverse_mode : bool)
  (tcs : option (list str)) (new_name : option str) (chs : list channel) :
  forall f partial,
    write_channels keywords reverse_mode tcs new_name f chs = Failed partial ->
    exists before ch after groups,
      chs = before ++ ch :: after
      /\ Forall2 (fun c g =>
                    channel_lines keywords reverse_mode tcs new_name c = Some g)
           before groups
      /\ (channel_lines keywords reverse_mode tcs new_name ch = None
          \/ write_raises tcs new_name ch = true)
      /\ partial = f ++ write_lines (List.concat groups).
Proof.
  induction chs as [|c rest IH]; intros f partial H; cbn [write_channels] in H.
  - discriminate.
  - destruct (channel_lines keywords reverse_mode tcs new_name c) as [g|] eqn:E.
    + destruct (write_raises tcs new_name c) eqn:W.
      * injection H as <-. exists [], c, rest, [].
        repeat split; [constructor | now right|]. simpl. now rewrite app_nil_r.
      * destruct (IH _ _ H)
          as (before & ch & after & groups & -> & HF & Hn & ->).
        exists (c :: before), ch, after, (g :: groups).
        repeat split; [now constructor | exact Hn|].
        simpl. now rewrite write_lines_app, app_assoc.
    + injection H as <-. exists [], c, rest, [].
      repeat split; [constructor | now left|]. simpl. now rewrite app_nil_r.
Qed.

(** A run stops midway only at a target channel and only when it was
    given a rename string, not empty, that holds a backslash (the
    renaming raises) or a surrogate code point (the write of the renamed
    line raises); the output file then holds the header line and,
    complete, the lines of the channels before that one, and nothing of
    that channel. *)
Theorem failed_run_output (content keywords_str : str) (reverse_mode : bool)
  (target_channels_str new_name : option str) (partial : str) :
  sort_m3u_urls content keywords_str reverse_mode target_channels_str new_name
  = Failed partial ->
  (exists name,
     new_name = Some name /\ name <> []
     /\ (In BACKSLASH name \/ ~ encodable name))
  /\ exists before ch after groups,
       channels_of content = before ++ ch :: after
       /\ is_target (parse_targets target_channels_str) ch = true
       /\ Forall2 (fun c g =>
                     channel_lines (parse_keywords keywords_str) reverse_mode
                       (parse_targets target_channels_str) new_name c = Some g)
            before groups
       /\ partial = header_text content ++ write_lines (List.concat groups).
Proof.
  intros H. unfold sort_m3u_urls in H. apply write_channels_failed in H.
  destruct H as (before & ch & after & groups & Hc & HF & Hn & ->).
  set (tcs := parse_targets target_channels_str) in *.
  set (kws := parse_keywords keywords_str) in *.
  assert (Ht : is_target tcs ch = true).
  { destruct (is_target tcs ch) eqn:T; [reflexivity|].
    destruct Hn as [Hn|Hn].
    - destruct (channel_lines_some kws reverse_mode tcs new_name ch
                  (or_intror T)) as [ls E]. congruence.
    - rewrite (write_raises_not_target tcs new_name ch T) in Hn.
      discriminate. }
  split.
  - destruct new_name as [name|].
    + exists name. split; [reflexivity|].
      destruct Hn as [Hn|Hn].
      * split.
        -- intros ->. unfold channel_lines, final_inf in Hn.
           rewrite andb_false_r in Hn. discriminate.
        -- left.
           destruct (in_dec N.eq_dec BACKSLASH name) as [Hin|Hout];
             [exact Hin|].
           destruct (channel_lines_some kws reverse_mode tcs (Some name) ch
                       (or_introl Hout)) as [ls E]. congruence.
      * unfold write_raises in Hn. rewrite Ht in Hn. cbn [andb] in Hn.
        apply andb_true_iff in Hn. destruct Hn as [Hne Hs]. split.
        -- intros ->. discriminate.
        -- right. intros He. apply can_encode_encodable in He.
           rewrite He in Hs. discriminate.
    + destruct Hn as [Hn|Hn]; [|discriminate].
      destruct (channel_lines_some kws reverse_mode tcs None ch (or_introl I))
        as [ls E]. congruence.
  - exists before, ch, after, groups. now repeat split.
Qed.

(** ** The header tool: deletion, the directive put in front, replace *)

Lemma process_line_delete (rv fv : option str) (raw : str) :
  HeaderTool.process_line rv fv true raw
  = Some (filter (fun l => negb (is_directive l)) [rstrip raw]).
Proof.
  unfold HeaderTool.process_line. cbn [filter].
  change (startswith (rstrip raw) HeaderTool.EXTM3U)
    with (is_directive (rstrip raw)).
  now destruct (is_directive (rstrip raw)).
Qed.

Lemma process_loop_delete (rv fv : option str) (lines : list str) :
  HeaderTool.process_loop rv fv true lines
  = Some (filter (fun l => negb (is_directive l)) (map rstrip lines)).
Proof.
  induction lines as [|raw rest IH]; [reflexivity|].
  cbn [HeaderTool.process_loop]. rewrite process_line_delete, IH.
  cbn [option_map map]. now rewrite <- filter_app.
Qed.

Lemma no_directive_left (l : list str) :
  existsb (fun line => startswith line HeaderTool.EXTM3U)
    (filter (fun l => negb (is_directive l)) l) = false.
Proof.
  induction l as [|x l IH]; [reflexivity|]. cbn [filter].
  destruct (is_directive x) eqn:E; [exact IH|].
  cbn [negb existsb]. unfold is_directive in E. now rewrite E.
Qed.

(** With the delete option and no forced value, every line that starts
    with the marker is removed and no directive line is written: the
    output is the other lines, each without its trailing spaces,
    whatever the replace value. *)
Theorem delete_removes_directives (file_content : str)
  (replace_value : option str) :
  HeaderTool.process_m3u_header file_content replace_value None true
  = Some (join [LF] (plain_lines file_content))
  /\ Forall (fun l => is_directive l = false) (plain_lines file_content).
Proof.
  split.
  - unfold HeaderTool.process_m3u_header, HeaderTool.processed_lines.
    rewrite process_loop_delete. cbn [option_map].
    unfold HeaderTool.with_directive. rewrite no_directive_left. reflexivity.
  - unfold plain_lines. apply Forall_forall. intros l Hl.
    apply filter_In in Hl. destruct Hl as [_ Hl].
    now destruct (is_directive l).
Qed.

(** With the delete option and a forced value, the directive lines of
    the input are removed and one directive line with the forced value
    is put in front of the other lines; the value is taken as it is,
    also with a backslash. *)
Theorem delete_then_force (file_content : str) (replace_value : option str)
  (force_value : str) :
  HeaderTool.process_m3u_header file_content replace_value (Some force_value)
    true
  = Some (join [LF] (forced_directive force_value :: plain_lines file_content)).
Proof.
  unfold HeaderTool.process_m3u_header, HeaderTool.processed_lines.
  rewrite process_loop_delete. cbn [option_map].
  unfold HeaderTool.with_directive. rewrite no_directive_left. reflexivity.
Qed.

Lemma process_line_other (rv fv : option str) (del : bool) (raw : str) :
  is_directive (rstrip raw) = false ->
  HeaderTool.process_line rv fv del raw = Some [rstrip raw].
Proof.
  unfold HeaderTool.process_line, is_directive. now intros ->.
Qed.

Lemma process_loop_other (rv fv : option str) (del : bool) (lines : list str) :
  Forall (fun raw => is_directive (rstrip raw) = false) lines ->
  HeaderTool.process_loop rv fv del lines = Some (map rstrip lines).
Proof.
  induction 1 as [|raw rest Hraw _ IH]; [reflexivity|].
  cbn [HeaderTool.process_loop].
  now rewrite (process_line_other rv fv del raw Hraw), IH.
Qed.

Lemma existsb_directive_false (lines : list str) :
  Forall (fun raw => is_directive (rstrip raw) = false) lines ->
  existsb (fun line => startswith line HeaderTool.EXTM3U) (map rstrip lines)
  = false.
Proof.
  induction 1 as [|raw rest Hraw _ IH]; [reflexivity|].
  cbn [map existsb]. unfold is_directive in Hraw. now rewrite Hraw, IH.
Qed.

(** A file without directive line, the empty file included, gets one in
    front when the delete option is off: the marker alone, or the marker
    with the forced value; the lines of the file follow, each without
    its trailing spaces. *)
Theorem missing_directive_added (file_content : str)
  (replace_value force_value : option str) :
  Forall (fun raw => is_directive (rstrip raw) = false)
    (splitlines file_content) ->
  HeaderTool.process_m3u_header file_content replace_value force_value false
  = Some (join [LF]
            (match force_value with
             | Some fv => forced_directive fv
             | None => HeaderTool.EXTM3U
             end :: map rstrip (splitlines file_content))).
Proof.
  intros H. unfold HeaderTool.process_m3u_header, HeaderTool.processed_lines.
  rewrite (process_loop_other _ _ _ _ H). cbn [option_map].
  unfold HeaderTool.with_directive. rewrite (existsb_directive_false _ H).
  now destruct force_value.
Qed.

(** When the delete option is off, the lines of the output always hold
    a directive line. *)
Theorem output_has_directive (file_content : str)
  (replace_value force_value : option str) (out : list str) :
  HeaderTool.processed_lines file_content replace_value force_value false
  = Some out ->
  exists l, In l out /\ is_directive l = true.
Proof.
  unfold HeaderTool.processed_lines.
  destruct (HeaderTool.process_loop replace_value force_value false
              (splitlines file_content)) as [pl|]; [|discriminate].
  cbn [option_map]. intros [= <-]. unfold HeaderTool.with_directive.
  destruct (existsb (fun line => startswith line HeaderTool.EXTM3U) pl) eqn:E.
  - apply existsb_exists in E. destruct E as (l & Hl & Hd).
    exists l. split; [|exact Hd]. now destruct force_value.
  - destruct force_value as [fv|]; cbn [negb andb].
    + eexists. split; [now left | reflexivity].
    + eexists. split; [now left | reflexivity].
Qed.

Lemma process_line_nothing_to_replace (rv : str) (del : bool) (raw : str) :
  (is_directive (rstrip raw) = true -> no_value_to_replace (rstrip raw)) ->
  HeaderTool.process_line (Some rv) None del raw
  = HeaderTool.process_line None None del raw.
Proof.
  unfold HeaderTool.process_line, is_directive, no_value_to_replace.
  intros H. destruct (startswith (rstrip raw) HeaderTool.EXTM3U); [|reflexivity].
  destruct del; [reflexivity|]. specialize (H eq_refl).
  destruct (Re.search HeaderTool.X_TVG_URL (rstrip raw)) as [cur|];
    [|reflexivity].
  now rewrite H.
Qed.

(** The replace option changes nothing, and never raises, when no
    directive line has an x-tvg-url attribute with a value that is not
    blank: the output is the one of a run without option. *)
Theorem replace_needs_a_value (file_content rv : str) (delete_extm3u : bool) :
  Forall (fun raw => is_directive (rstrip raw) = true ->
                     no_value_to_replace (rstrip raw))
    (splitlines file_content) ->
  HeaderTool.process_m3u_header file_content (Some rv) None delete_extm3u
  = HeaderTool.process_m3u_header file_content None None delete_extm3u.
Proof.
  intros H. unfold HeaderTool.process_m3u_header, HeaderTool.processed_lines.
  f_equal. f_equal.
  induction H as [|raw rest Hraw _ IH]; [reflexivity|].
  cbn [HeaderTool.process_loop].
  now rewrite (process_line_nothing_to_replace rv delete_extm3u raw Hraw), IH.
Qed.

(** ** The first match of a pattern *)

Lemma no_hit_nil (key z : str) : no_hit key [] z.
Proof.
  intros a1 a2 E Hne. symmetry in E. apply app_eq_nil in E.
  destruct E. congruence.
Qed.

Lemma no_hit_cons (key : str) (c : char) (a z : str) :
  Re.match_here key (c :: a ++ z) = None -> no_hit key a z ->
  no_hit key (c :: a) z.
Proof.
  intros Hc Ha a1 a2 E Hne. destruct a1 as [|x a1]; cbn [app] in E.
  - subst a2. exact Hc.
  - injection E as _ E. now apply (Ha a1 a2).
Qed.

Lemma no_hit_inv (key : str) (c : char) (a z : str) :
  no_hit key (c :: a) z ->
  Re.match_here key (c :: a ++ z) = None /\ no_hit key a z.
Proof.
  intros H. split.
  - apply (H [] (c :: a)); [reflexivity | discriminate].
  - intros a1 a2 E Hne. apply (H (c :: a1) a2); [now rewrite E | exact Hne].
Qed.

Lemma search_split (key s v : str) :
  Re.search key s = Some v ->
  exists a rest,
    s = a ++ key ++ v ++ QUOTE :: rest /\ ~ In QUOTE v
    /\ no_hit key a (key ++ v ++ QUOTE :: rest).
Proof.
  induction s as [|c t IH]; cbn [Re.search];
    destruct (Re.match_here key _) as [v'|] eqn:M; intros H;
    try discriminate.
  - injection H as <-. destruct (match_here_split key [] v' M) as (rest & E & Hv).
    exists [], rest. repeat split; [exact E | exact Hv | apply no_hit_nil].
  - injection H as <-.
    destruct (match_here_split key (c :: t) v' M) as (rest & E & Hv).
    exists [], rest. repeat split; [exact E | exact Hv | apply no_hit_nil].
  - destruct (IH H) as (a & rest & -> & Hv & Hn).
    exists (c :: a), rest. repeat split; [exact Hv|].
    now apply no_hit_cons.
Qed.

Lemma search_found (key a v rest : str) :
  ~ In QUOTE v -> no_hit key a (key ++ v ++ QUOTE :: rest) ->
  Re.search key (a ++ key ++ v ++ QUOTE :: rest) = Some v.
Proof.
  intros Hv. induction a as [|c a IH]; intros Hn; cbn [app].
  - destruct (key ++ v ++ QUOTE :: rest) eqn:E; cbn [Re.search];
      rewrite <- E, (match_here_found key v rest Hv); reflexivity.
  - apply no_hit_inv in Hn. destruct Hn as [Hc Ha].
    cbn [Re.search]. rewrite Hc. now apply IH.
Qed.

Lemma sub_from_no_hit (ps : list Re.piece) (key a z : str) :
  no_hit key a z ->
  Re.sub_from ps key 0 (a ++ z) = a ++ Re.sub_from ps key 0 z.
Proof.
  induction a as [|c a IH]; intros Hn; [reflexivity|].
  apply no_hit_inv in Hn. destruct Hn as [Hc Ha].
  cbn [app]. rewrite (sub_from_miss ps key c (a ++ z) Hc). now rewrite IH.
Qed.

Lemma take_until_some (stop : char) (s : str) :
  In stop s -> exists v, Re.take_until stop s = Some v.
Proof.
  induction s as [|c t IH]; intros H; [destruct H|].
  cbn [Re.take_until]. destruct (c =? stop)%N eqn:E; [eauto|].
  destruct H as [H|H]; [apply N.eqb_neq in E; congruence|].
  destruct (IH H) as [v ->]. cbn [option_map]. eauto.
Qed.

(** Whether a text starts with [P] is decided by its first characters. *)
Lemma startswith_prefix_only (P x y y' : str) :
  (List.length P <= List.length x)%nat ->
  startswith (x ++ y) P = startswith (x ++ y') P.
Proof.
  revert x. induction P as [|a P IH]; intros x H; [reflexivity|].
  destruct x as [|c x]; [simpl in H; lia|].
  cbn [app startswith]. rewrite (IH x) by (simpl in H; lia). reflexivity.
Qed.

(** When a quote follows, no match at a position means that the key
    does not start there; this does not depend on the value. *)
Lemma no_hit_value (key a v rest v' rest' : str) :
  no_hit key a (key ++ v ++ QUOTE :: rest) ->
  no_hit key a (key ++ v' ++ QUOTE :: rest').
Proof.
  intros H a1 a2 E Hne. specialize (H a1 a2 E Hne).
  unfold Re.match_here in *.
  rewrite app_assoc in *.
  rewrite (startswith_prefix_only key (a2 ++ key) _ (v ++ QUOTE :: rest))
    by (rewrite length_app; lia).
  destruct (startswith ((a2 ++ key) ++ v ++ QUOTE :: rest) key);
    [|reflexivity].
  exfalso.
  destruct (take_until_some QUOTE
              (skipn (List.length key) ((a2 ++ key) ++ v ++ QUOTE :: rest)))
    as [w Hw]; [|congruence].
  rewrite skipn_app. apply in_or_app. right.
  replace (List.length key - List.length (a2 ++ key))%nat with 0%nat
    by (rewrite length_app; lia).
  cbn [skipn]. apply in_or_app. right. now left.
Qed.

(** A text that [p] starts, cut before a character that [p] lacks. *)
Lemma prefix_before_char (c : char) (p b l z : str) :
  ~ In c p -> p ++ b = l ++ c :: z -> exists w, l = p ++ w.
Proof.
  revert l. induction p as [|x p IH]; intros l Hn E; [now exists l|].
  destruct l as [|y l]; cbn [app] in E.
  - injection E as -> _. exfalso. apply Hn. now left.
  - injection E as -> E.
    destruct (IH l (fun H => Hn (or_intror H)) E) as [w ->]. now exists w.
Qed.

(** After a line in which the key does not occur and a space, no match
    starts before the appended attribute. *)
Lemma no_hit_appended (line z : str) :
  ~ occurs_in HeaderTool.X_TVG_URL line ->
  no_hit HeaderTool.X_TVG_URL (line ++ [32%N]) z.
Proof.
  intros Ho a1 a2 E Hne. unfold Re.match_here.
  destruct (startswith (a2 ++ z) HeaderTool.X_TVG_URL) eqn:S; [|reflexivity].
  exfalso. apply startswith_inv in S. destruct S as [b S].
  destruct (@exists_last _ a2 Hne) as (l2 & c & ->).
  rewrite app_assoc in E. apply app_inj_tail in E. destruct E as [-> <-].
  rewrite <- app_assoc in S. cbn [app] in S. symmetry in S.
  destruct (prefix_before_char 32%N HeaderTool.X_TVG_URL b l2 z) as [w ->];
    [|exact S|].
  - unfold HeaderTool.X_TVG_URL. simpl.
    intros H. repeat (destruct H as [H|H]; [discriminate H|]). exact H.
  - apply Ho. exists a1, w. reflexivity.
Qed.

(** ** The force option sets the value *)

Lemma X_TVG_URL_nonempty : HeaderTool.X_TVG_URL <> [].
Proof. discriminate. Qed.

Lemma forced_template_plain (fv : str) :
  ~ In BACKSLASH fv -> ~ In BACKSLASH (HeaderTool.X_TVG_URL ++ fv ++ [QUOTE]).
Proof.
  intros Hf Hin. apply in_app_or in Hin. destruct Hin as [Hin|Hin].
  - exact (X_TVG_URL_plain Hin).
  - apply in_app_or in Hin. destruct Hin as [Hin|[Hin|[]]]; [tauto|].
    discriminate Hin.
Qed.

Lemma process_line_force (rv : option str) (fv raw : str) :
  ~ In BACKSLASH fv -> ~ In QUOTE fv ->
  is_directive (rstrip raw) = true -> attribute_closed (rstrip raw) ->
  exists l,
    HeaderTool.process_line rv (Some fv) false raw = Some [l]
    /\ is_directive l = true
    /\ Re.search HeaderTool.X_TVG_URL l = Some fv.
Proof.
  intros Hb Hq Hd Hc. unfold HeaderTool.process_line.
  change (startswith (rstrip raw) HeaderTool.EXTM3U)
    with (is_directive (rstrip raw)).
  rewrite Hd. set (line := rstrip raw) in *.
  destruct (Re.search HeaderTool.X_TVG_URL line) as [cur|] eqn:S.
  - destruct (search_split _ _ _ S) as (a & rest & E & Hcur & Hn).
    assert (R : Re.sub 1 HeaderTool.X_TVG_URL
                  (HeaderTool.X_TVG_URL ++ fv ++ [QUOTE]) line
                = Some (a ++ HeaderTool.X_TVG_URL ++ fv ++ QUOTE
                          :: Re.sub_from
                               (map Re.Lit
                                  (HeaderTool.X_TVG_URL ++ fv ++ [QUOTE]))
                               HeaderTool.X_TVG_URL 0 rest)).
    { unfold Re.sub.
      rewrite parse_template_plain by now apply forced_template_plain.
      rewrite E, (sub_from_no_hit _ _ _ _ Hn).
      rewrite (sub_from_hit _ _ cur rest X_TVG_URL_nonempty Hcur).
      rewrite expand_template_plain. rewrite <- !app_assoc. reflexivity. }
    rewrite R. cbn [option_map]. eexists. split; [reflexivity|]. split.
    + exact (sub_directive _ line _ Hd R).
    + apply search_found; [exact Hq|]. exact (no_hit_value _ _ _ _ _ _ Hn).
  - exists (line ++ [32%N] ++ HeaderTool.X_TVG_URL ++ fv ++ [QUOTE]).
    split; [reflexivity|]. split.
    + now apply is_directive_app.
    + rewrite app_assoc.
      change (HeaderTool.X_TVG_URL ++ fv ++ [QUOTE])
        with (HeaderTool.X_TVG_URL ++ fv ++ QUOTE :: []).
      apply search_found; [exact Hq|].
      apply no_hit_appended. now apply Hc.
Qed.

Lemma forced_directive_value (fv : str) :
  ~ In QUOTE fv ->
  Re.search HeaderTool.X_TVG_URL (forced_directive fv) = Some fv.
Proof.
  intros Hq. unfold forced_directive. rewrite app_assoc.
  change (HeaderTool.X_TVG_URL ++ fv ++ [QUOTE])
    with (HeaderTool.X_TVG_URL ++ fv ++ QUOTE :: []).
  apply search_found; [exact Hq|].
  apply no_hit_appended. apply str_in_not_occurs. reflexivity.
Qed.

(** With a forced value that holds no backslash and no quote, and
    directive lines whose x-tvg-url attribute, if any, is closed, every
    directive line of the output has the forced value as the value the
    tool itself reads from it; the tool does not raise. *)
Theorem force_sets_value (file_content : str) (replace_value : option str)
  (fv : str) :
  ~ In BACKSLASH fv -> ~ In QUOTE fv ->
  Forall (fun raw => is_directive (rstrip raw) = true ->
                     attribute_closed (rstrip raw))
    (splitlines file_content) ->
  exists out,
    HeaderTool.processed_lines file_content replace_value (Some fv) false
    = Some out
    /\ Forall (fun l => is_directive l = true ->
                        Re.search HeaderTool.X_TVG_URL l = Some fv) out.
Proof.
  intros Hb Hq H. unfold HeaderTool.processed_lines.
  assert (L : exists pl,
    HeaderTool.process_loop replace_value (Some fv) false
      (splitlines file_content) = Some pl
    /\ Forall (fun l => is_directive l = true ->
                        Re.search HeaderTool.X_TVG_URL l = Some fv) pl).
  { induction H as [|raw rest Hraw _ (pl & E & Hpl)].
    - exists []. split; [reflexivity | constructor].
    - cbn [HeaderTool.process_loop].
      destruct (is_directive (rstrip raw)) eqn:D.
      + destruct (process_line_force replace_value fv raw Hb Hq D (Hraw eq_refl))
          as (l & -> & Hd & Hs).
        rewrite E. cbn [option_map app]. eexists. split; [reflexivity|].
        constructor; [intros _; exact Hs | exact Hpl].
      + rewrite (process_line_other _ _ _ raw D), E. cbn [option_map app].
        eexists. split; [reflexivity|].
        constructor; [congruence | exact Hpl]. }
  destruct L as (pl & -> & Hpl). cbn [option_map].
  eexists. split; [reflexivity|]. unfold HeaderTool.with_directive.
  destruct (negb _); [|exact Hpl].
  constructor; [|exact Hpl]. intros _. now apply forced_directive_value.
Qed.

(** ** A second pass of the header tool *)

Lemma splitlines_cons (c : char) (t : str) :
  splitlines (c :: t)
  = if is_linebreak c then
      [] :: match t with
            | c' :: t' => if ((c =? CR) && (c' =? LF))%N then splitlines t'
                          else splitlines t
            | [] => []
            end
    else match splitlines t with
         | [] => [[c]]
         | l :: ls => (c :: l) :: ls
         end.
Proof. reflexivity. Qed.

Lemma splitlines_one_line (s : str) : Forall one_line (splitlines s).
Proof.
  assert (G : forall n s, (List.length s <= n)%nat ->
                          Forall one_line (splitlines s)).
  { induction n as [|n IH]; intros [|c t] Hlen; try (now constructor).
    - simpl in Hlen. lia.
    - simpl in Hlen. rewrite splitlines_cons.
      destruct (is_linebreak c) eqn:E.
      + constructor; [constructor|].
        destruct t as [|c' t']; [constructor|].
        destruct ((c =? CR) && (c' =? LF))%N; apply IH; simpl in *; lia.
      + assert (Ht : Forall one_line (splitlines t)) by (apply IH; lia).
        destruct (splitlines t) as [|l ls].
        * constructor; [|constructor]. now repeat constructor.
        * apply Forall_cons_iff in Ht. destruct Ht as [Hl Hls].
          constructor; [now constructor | exact Hls]. }
  exact (G (List.length s) s (le_n _)).
Qed.

Lemma splitlines_line (l t : str) :
  one_line l -> splitlines (l ++ LF :: t) = l :: splitlines t.
Proof.
  induction 1 as [|c l Hc _ IH]; cbn [app].
  - rewrite splitlines_cons. cbn. now destruct t.
  - now rewrite splitlines_cons, Hc, IH.
Qed.

Lemma splitlines_single (l : str) :
  one_line l -> l <> [] -> splitlines l = [l].
Proof.
  induction 1 as [|c l Hc Hl IH]; intros Hne; [congruence|].
  rewrite splitlines_cons, Hc. destruct l as [|c' l']; [reflexivity|].
  now rewrite IH.
Qed.

(** Joining lines with newlines and splitting the text gives the lines
    back, when the last line is not empty. *)
Lemma splitlines_join (ls : list str) :
  Forall one_line ls -> ends_with_text ls = true ->
  splitlines (join [LF] ls) = ls.
Proof.
  induction 1 as [|l rest Hl _ IH]; intros He; [reflexivity|].
  destruct rest as [|l2 rest].
  - cbn [join]. apply splitlines_single; [exact Hl|].
    cbn in He. now destruct l.
  - change (join [LF] (l :: l2 :: rest)) with (l ++ LF :: join [LF] (l2 :: rest)).
    rewrite (splitlines_line l _ Hl), IH; [reflexivity | exact He].
Qed.

Lemma process_loop_no_value (del : bool) (lines : list str) :
  HeaderTool.process_loop None None del lines
  = Some (if del
          then filter (fun l => negb (is_directive l)) (map rstrip lines)
          else map rstrip lines).
Proof.
  destruct del; [apply process_loop_delete|].
  induction lines as [|raw rest IH]; [reflexivity|].
  cbn [HeaderTool.process_loop]. rewrite IH.
  unfold HeaderTool.process_line.
  now destruct (startswith (rstrip raw) HeaderTool.EXTM3U).
Qed.

Lemma map_rstrip_fixed (ls : list str) :
  Forall (fun l => rstrip l = l) ls -> map rstrip ls = ls.
Proof.
  induction 1 as [|l ls Hl _ IH]; [reflexivity|]. cbn [map]. now rewrite Hl, IH.
Qed.

Lemma filter_idem {A : Type} (f : A -> bool) (l : list A) :
  filter f (filter f l) = filter f l.
Proof.
  induction l as [|x l IH]; [reflexivity|]. cbn [filter].
  destruct (f x) eqn:E; [|exact IH]. cbn [filter]. now rewrite E, IH.
Qed.

Lemma with_directive_lines (del : bool) (base : list str) (P : str -> Prop) :
  P HeaderTool.EXTM3U -> Forall P base ->
  Forall P (HeaderTool.with_directive None del base).
Proof.
  intros H0 H. unfold HeaderTool.with_directive.
  destruct (negb _ && negb del); [now constructor | exact H].
Qed.

Lemma with_directive_idem (del : bool) (base : list str) :
  HeaderTool.with_directive None del (HeaderTool.with_directive None del base)
  = HeaderTool.with_directive None del base.
Proof.
  unfold HeaderTool.with_directive.
  destruct (existsb (fun line => startswith line HeaderTool.EXTM3U) base) eqn:E;
    destruct del; cbn [negb andb]; rewrite ?E; reflexivity.
Qed.

(** Without replace and force value, a second pass over the output of
    the header tool writes that output again, provided the lines of the
    first output do not end with an empty line. *)
Theorem header_tool_second_pass (file_content : str) (delete_extm3u : bool)
  (out : list str) :
  HeaderTool.processed_lines file_content None None delete_extm3u = Some out ->
  ends_with_text out = true ->
  HeaderTool.process_m3u_header (join [LF] out) None None delete_extm3u
  = Some (join [LF] out).
Proof.
  unfold HeaderTool.process_m3u_header, HeaderTool.processed_lines.
  rewrite !process_loop_no_value. cbn [option_map]. intros [= <-] He.
  set (base := if delete_extm3u
               then filter (fun l => negb (is_directive l))
                      (map rstrip (splitlines file_content))
               else map rstrip (splitlines file_content)) in *.
  assert (Hbase : Forall (fun l => one_line l /\ rstrip l = l) base).
  { assert (Hm : Forall (fun l => one_line l /\ rstrip l = l)
                   (map rstrip (splitlines file_content))).
    { apply Forall_map. eapply Forall_impl; [|apply splitlines_one_line].
      intros l Hl. split; [now apply Forall_rstrip | apply rstrip_idem]. }
    unfold base. destruct delete_extm3u; [|exact Hm].
    apply Forall_forall. intros l Hl. apply filter_In in Hl.
    rewrite Forall_forall in Hm. apply Hm. tauto. }
  assert (Hout : Forall (fun l => one_line l /\ rstrip l = l)
                   (HeaderTool.with_directive None delete_extm3u base)).
  { apply with_directive_lines; [|exact Hbase].
    split; [|reflexivity]. unfold one_line, HeaderTool.EXTM3U.
    repeat constructor. }
  rewrite splitlines_join;
    [|eapply Forall_impl; [|exact Hout]; simpl; tauto | exact He].
  rewrite map_rstrip_fixed
    by (eapply Forall_impl; [|exact Hout]; simpl; tauto).
  do 2 f_equal.
  destruct delete_extm3u.
  - unfold HeaderTool.with_directive. cbn [negb andb].
    rewrite !Bool.andb_false_r. unfold base. now rewrite filter_idem.
  - apply with_directive_idem.
Qed.

(** ** The header tool keeps every line at its place *)

Lemma process_line_single (rv fv : option str) (raw : str) (out : list str) :
  HeaderTool.process_line rv fv false raw = Some out -> exists l, out = [l].
Proof.
  unfold HeaderTool.process_line.
  destruct (startswith (rstrip raw) HeaderTool.EXTM3U); [|intros [= <-]; eauto].
  assert (One : forall repl,
    option_map (fun new_line : str => [new_line])
      (Re.sub 1 HeaderTool.X_TVG_URL repl (rstrip raw)) = Some out ->
    exists l, out = [l]).
  { intros repl.
    destruct (Re.sub 1 HeaderTool.X_TVG_URL repl (rstrip raw));
      [intros [= <-]; eauto | discriminate]. }
  destruct fv as [fv|].
  - destruct (Re.search HeaderTool.X_TVG_URL (rstrip raw));
      [apply One | intros [= <-]; eauto].
  - destruct rv as [rv|]; [|intros [= <-]; eauto].
    destruct (Re.search HeaderTool.X_TVG_URL (rstrip raw)) as [cur|];
      [|intros [= <-]; eauto].
    destruct (truthy (strip cur)); [apply One | intros [= <-]; eauto].
Qed.

Lemma process_loop_aligned (rv fv : option str) (lines : list str) :
  forall pl,
    HeaderTool.process_loop rv fv false lines = Some pl ->
    Forall2 (fun raw l => if is_directive (rstrip raw)
                          then is_directive l = true
                          else l = rstrip raw) lines pl.
Proof.
  induction lines as [|raw rest IH]; intros pl E;
    cbn [HeaderTool.process_loop] in E.
  - injection E as <-. constructor.
  - destruct (HeaderTool.process_line rv fv false raw) as [o1|] eqn:E1;
      [|discriminate].
    destruct (HeaderTool.process_loop rv fv false rest) as [o2|];
      [|discriminate].
    injection E as <-.
    destruct (process_line_single rv fv raw o1 E1) as [l ->].
    pose proof (process_line_frame rv fv false raw [l] E1) as F. cbn [app].
    constructor; [|now apply IH].
    destruct (is_directive (rstrip raw)).
    + now apply Forall_inv in F.
    + now injection F.
Qed.

(** With the delete option off, the output has one line for each line
    of the input, in the same order, after at most one directive line
    put in front: a line that is no directive line is written without
    its trailing spaces, a directive line gives a directive line. *)
Theorem lines_keep_their_place (file_content : str)
  (replace_value force_value : option str) (out : list str) :
  HeaderTool.processed_lines file_content replace_value force_value false
  = Some out ->
  exists body,
    (out = body \/ exists d, is_directive d = true /\ out = d :: body)
    /\ Forall2 (fun raw l => if is_directive (rstrip raw)
                             then is_directive l = true
                             else l = rstrip raw)
         (splitlines file_content) body.
Proof.
  unfold HeaderTool.processed_lines.
  destruct (HeaderTool.process_loop replace_value force_value false
              (splitlines file_content)) as [pl|] eqn:E; [|discriminate].
  cbn [option_map]. intros [= <-]. exists pl.
  split;
    [|exact (process_loop_aligned replace_value force_value _ pl E)].
  unfold HeaderTool.with_directive.
  destruct force_value as [fv|].
  - destruct (negb _); [|now left].
    right. eexists. split; [|reflexivity]. reflexivity.
  - destruct (negb _ && negb false); [|now left].
    right. eexists. split; [|reflexivity]. reflexivity.
Qed.

(** ** The replace option sets the value *)

(** A directive line whose first x-tvg-url attribute has a value that
    is not blank gets the replace value, when this value holds no
    backslash and no quote: the tool reads the new value from the line
    it writes. *)
Theorem replace_sets_value (rv raw current_value : str) :
  ~ In BACKSLASH rv -> ~ In QUOTE rv ->
  is_directive (rstrip raw) = true ->
  Re.search HeaderTool.X_TVG_URL (rstrip raw) = Some current_value ->
  strip current_value <> [] ->
  exists l,
    HeaderTool.process_line (Some rv) None false raw = Some [l]
    /\ is_directive l = true
    /\ Re.search HeaderTool.X_TVG_URL l = Some rv.
Proof.
  intros Hb Hq Hd S Hcur. unfold HeaderTool.process_line.
  change (startswith (rstrip raw) HeaderTool.EXTM3U)
    with (is_directive (rstrip raw)).
  rewrite Hd, S.
  destruct (strip current_value) as [|c0 s0] eqn:Ecur; [congruence|].
  cbn [truthy].
  destruct (search_split _ _ _ S) as (a & rest & E & Hv & Hn).
  assert (R : Re.sub 1 HeaderTool.X_TVG_URL
                (HeaderTool.X_TVG_URL ++ rv ++ [QUOTE]) (rstrip raw)
              = Some (a ++ HeaderTool.X_TVG_URL ++ rv ++ QUOTE
                        :: Re.sub_from
                             (map Re.Lit (HeaderTool.X_TVG_URL ++ rv ++ [QUOTE]))
                             HeaderTool.X_TVG_URL 0 rest)).
  { unfold Re.sub.
    rewrite parse_template_plain by now apply forced_template_plain.
    rewrite E, (sub_from_no_hit _ _ _ _ Hn).
    rewrite (sub_from_hit _ _ current_value rest X_TVG_URL_nonempty Hv).
    rewrite expand_template_plain. rewrite <- !app_assoc. reflexivity. }
  rewrite R. cbn [option_map]. eexists. split; [reflexivity|]. split.
  - exact (sub_directive _ (rstrip raw) _ Hd R).
  - apply search_found; [exact Hq|]. exact (no_hit_value _ _ _ _ _ _ Hn).
Qed.

(** ** The lines a run writes *)

Lemma sub_from_chars (P : char -> Prop) (t key : str) (s : str) :
  Forall P t ->
  forall skip, Forall P s ->
  Forall P (Re.sub_from (map Re.Lit t) key skip s).
Proof.
  intros Ht. induction s as [|c s IH]; intros skip Hs; [constructor|].
  cbn [Re.sub_from]. inversion Hs as [|? ? Hc Hs']; subst.
  destruct skip as [|k]; [|now apply IH].
  destruct (Re.match_here key (c :: s)) as [v|].
  - rewrite expand_template_plain. apply Forall_app. split; [exact Ht|].
    now apply IH.
  - constructor; [exact Hc | now apply IH].
Qed.

(** With a name without backslash, a renamed line is made of characters
    of the line, of the name, of the attribute key, and of commas. *)
Lemma rename_inf_chars (P : char -> Prop) (inf_line name renamed : str) :
  ~ In BACKSLASH name ->
  Forall P inf_line -> Forall P name -> Forall P (COMMA :: TVG_NAME) ->
  rename_inf inf_line name = Some renamed -> Forall P renamed.
Proof.
  intros Hb Hi Hn Hk. unfold rename_inf.
  inversion Hk as [|? ? Hc Hkey]; subst.
  assert (Hq : P QUOTE).
  { unfold TVG_NAME in Hkey. rewrite Forall_forall in Hkey. apply Hkey.
    vm_compute. tauto. }
  assert (E : forall l,
    (if str_in TVG_NAME inf_line
     then Re.sub 0 TVG_NAME (TVG_NAME ++ name ++ [QUOTE]) inf_line
     else Some inf_line) = Some l -> Forall P l).
  { intros l. destruct (str_in TVG_NAME inf_line);
      [|intros [= <-]; exact Hi].
    unfold Re.sub. rewrite parse_template_plain.
    - intros E. injection E as <-.
      change (Forall P (Re.sub_from
                          (map Re.Lit (TVG_NAME ++ name ++ [QUOTE]))
                          TVG_NAME 0 inf_line)).
      apply sub_from_chars; [|exact Hi].
      apply Forall_app. split; [exact Hkey|].
      apply Forall_app. split; [exact Hn | now constructor].
    - intros Hin. apply in_app_or in Hin. destruct Hin as [Hin|Hin].
      + revert Hin. unfold TVG_NAME. simpl.
        intros H. repeat (destruct H as [H|H]; [discriminate H|]). exact H.
      + apply in_app_or in Hin. destruct Hin as [Hin|[Hin|[]]];
          [contradiction | discriminate Hin]. }
  destruct (if str_in TVG_NAME inf_line
            then Re.sub 0 TVG_NAME (TVG_NAME ++ name ++ [QUOTE]) inf_line
            else Some inf_line) as [l|]; [|discriminate].
  specialize (E l eq_refl).
  destruct (str_in [COMMA] l) eqn:C; intros [= <-].
  - apply str_in_char in C.
    destruct (rsplit1_split COMMA l C) as (p & q & -> & -> & _).
    cbn [hd]. apply Forall_app in E. destruct E as [Hp _].
    apply Forall_app. split; [exact Hp|]. now constructor.
  - apply Forall_app. split; [exact E|]. now constructor.
Qed.

Lemma strip_info_marker (b : str) : strip (EXTINF ++ b) = EXTINF ++ rstrip b.
Proof.
  unfold strip, EXTINF. cbn [app]. rewrite lstrip_cons.
  change (isspace 35%N) with false. cbv iota.
  rewrite !rstrip_cons_kept by reflexivity. reflexivity.
Qed.

(** A written line that starts with the info marker is read as an info
    line; a written content line is not. *)
Lemma info_line_written (l : str) :
  startswith l EXTINF = true -> is_info_line (l ++ [LF]) = true.
Proof.
  intros H. apply startswith_inv in H. destruct H as [b ->].
  unfold is_info_line. rewrite <- app_assoc, strip_info_marker.
  apply startswith_app.
Qed.

Lemma content_lines_written (us : list str) :
  Forall kept_content us ->
  filter is_info_line (map (fun l => l ++ [LF]) us) = [].
Proof.
  induction 1 as [|u us (Hk & _ & Hm) _ IH]; [reflexivity|].
  cbn [map filter]. unfold is_info_line at 1.
  now rewrite (strip_written_line u Hk), Hm.
Qed.

Lemma written_urls_kept (keywords : list str) (reverse_mode : bool)
  (tcs : option (list str)) (ch : channel) :
  Forall kept_content (urls ch) ->
  Forall kept_content (written_urls keywords reverse_mode tcs ch).
Proof.
  intros Hu. unfold written_urls. destruct (should_sort tcs ch && _); [|exact Hu].
  eapply Permutation_Forall; [apply sorted_perm | exact Hu].
Qed.

(** With a rename string without backslash and line terminator, the
    info line a turn of the loop writes is on one line and starts with
    the info marker. *)
Lemma final_inf_one_line (tcs : option (list str)) (new_name : option str)
  (ch : channel) (fi : str) :
  kept_info (inf ch) -> simple_name new_name ->
  final_inf tcs new_name ch = Some fi ->
  no_newline fi /\ startswith fi EXTINF = true.
Proof.
  intros [[_ Hl] Hm] Hs. unfold final_inf.
  destruct new_name as [name|]; [|intros [= <-]; now split].
  destruct (is_target tcs ch && truthy name); [|intros [= <-]; now split].
  destruct Hs as [Hb Hn]. intros R. split.
  - apply (rename_inf_chars (fun c => c <> LF /\ c <> CR) (inf ch) name fi
             Hb Hl Hn); [|exact R].
    unfold TVG_NAME. repeat (constructor; [split; discriminate|]). constructor.
  - exact (rename_inf_marker _ _ _ Hm R).
Qed.

Lemma channel_lines_written (keywords : list str) (reverse_mode : bool)
  (tcs : option (list str)) (new_name : option str) (ch : channel)
  (g : list str) :
  kept_channel ch -> simple_name new_name ->
  channel_lines keywords reverse_mode tcs new_name ch = Some g ->
  Forall no_newline g
  /\ Forall (fun l => strip (l ++ [LF]) <> []) g
  /\ List.length (filter is_info_line (map (fun l => l ++ [LF]) g)) = 1%nat.
Proof.
  intros [Hi Hu] Hs. unfold channel_lines.
  destruct (final_inf tcs new_name ch) as [fi|] eqn:F; [|discriminate].
  intros [= <-].
  destruct (final_inf_one_line tcs new_name ch fi Hi Hs F) as [Hn Hm].
  pose proof (written_urls_kept keywords reverse_mode tcs ch Hu) as Hw.
  pose proof (info_line_written fi Hm) as Hinfo.
  split; [|split].
  - constructor; [exact Hn|].
    eapply Forall_impl; [|exact Hw]. intros u ((_ & Hk) & _). exact Hk.
  - constructor.
    + intros E. unfold is_info_line in Hinfo. rewrite E in Hinfo.
      discriminate Hinfo.
    + eapply Forall_impl; [|exact Hw]. intros u (Hk & Hne & _).
      now rewrite (strip_written_line u Hk).
  - cbn [map filter]. rewrite Hinfo, (content_lines_written _ Hw).
    reflexivity.
Qed.

(** The lines of a run, complete or not, with such a rename string. *)
Lemma write_channels_written (keywords : list str) (reverse_mode : bool)
  (tcs : option (list str)) (new_name : option str) (chs : list channel) :
  Forall kept_channel chs -> simple_name new_name ->
  forall f, exists ls,
    written (write_channels keywords reverse_mode tcs new_name f chs)
    = f ++ write_lines ls
    /\ Forall no_newline ls
    /\ Forall (fun l => strip (l ++ [LF]) <> []) ls.
Proof.
  intros H Hs. induction H as [|ch rest Hch _ IH]; intros f;
    cbn [write_channels].
  - exists []. split; [simpl; now rewrite app_nil_r|]. split; constructor.
  - destruct (channel_lines keywords reverse_mode tcs new_name ch) as [g|] eqn:E.
    + destruct (write_raises tcs new_name ch).
      * exists []. split; [simpl; now rewrite app_nil_r|]. split; constructor.
      * destruct (IH (f ++ write_lines g)) as (ls & -> & Hn & Hb).
        destruct (channel_lines_written _ _ _ _ _ _ Hch Hs E)
          as (Hgn & Hgb & _).
        exists (g ++ ls). split; [now rewrite write_lines_app, app_assoc|].
        split; apply Forall_app; now split.
    + exists []. split; [simpl; now rewrite app_nil_r|]. split; constructor.
Qed.

(** The groups of lines of a completed run, read back: one info line
    for each channel. *)
Lemma groups_info_lines (keywords : list str) (reverse_mode : bool)
  (tcs : option (list str)) (new_name : option str) (chs : list channel)
  (groups : list (list str)) :
  simple_name new_name ->
  Forall2 (fun ch g =>
             channel_lines keywords reverse_mode tcs new_name ch = Some g)
    chs groups ->
  Forall kept_channel chs ->
  List.length (filter is_info_line (readlines (write_lines (List.concat groups))))
  = List.length chs.
Proof.
  intros Hs HF Hk.
  assert (H : Forall no_newline (List.concat groups)
              /\ List.length (filter is_info_line
                                (map (fun l => l ++ [LF]) (List.concat groups)))
                 = List.length chs).
  { induction HF as [|ch g chs groups E _ IH]; [split; [constructor|reflexivity]|].
    inversion Hk as [|? ? Hch Hrest]; subst.
    destruct (IH Hrest) as [Hn Hc].
    destruct (channel_lines_written _ _ _ _ _ _ Hch Hs E) as (Hgn & _ & Hg1).
    cbn [List.concat]. split; [apply Forall_app; now split|].
    rewrite map_app, filter_app, length_app.
    exact (f_equal2 Nat.add Hg1 Hc). }
  destruct H as [Hn Hc]. now rewrite (readlines_write_lines _ Hn).
Qed.

Lemma header_line_kept_line (content h : str) :
  header_of (readlines content) = Some h ->
  kept_line h /\ occurs_in EXTM3U h.
Proof.
  intros Hh.
  destruct (header_of_cases (readlines content))
    as [(l0 & rest & Hl & Hm & Hh')|[Hh' _]]; [|congruence].
  rewrite Hh' in Hh. injection Hh as <-. split.
  - split; [apply strip_idem|].
    pose proof (readlines_kept content) as K. rewrite Hl in K.
    now apply Forall_inv in K.
  - now apply EXTM3U_occurs_in_strip.
Qed.

(** With a rename string that holds no backslash and no line
    terminator, the output file, also that of a run that stops midway,
    has no blank line: every line that a reading of the file gives holds
    a character that is not a space.  The blank lines of the input are
    not written. *)
Theorem no_blank_line_written (content keywords_str : str)
  (reverse_mode : bool) (target_channels_str new_name : option str) :
  simple_name new_name ->
  Forall (fun l => strip l <> [])
    (readlines (written (sort_m3u_urls content keywords_str reverse_mode
                           target_channels_str new_name))).
Proof.
  intros Hs. unfold sort_m3u_urls.
  destruct (write_channels_written (parse_keywords keywords_str) reverse_mode
              (parse_targets target_channels_str) new_name
              (channels_of content) (channels_of_kept content) Hs
              (match header_of (readlines content) with
               | Some h => h ++ [LF]
               | None => []
               end)) as (ls & E & Hn & Hb).
  unfold channels_of in E. rewrite E.
  destruct (header_of (readlines content)) as [h|] eqn:Hh.
  - destruct (header_line_kept_line content h Hh) as [Hk Hm].
    rewrite <- app_assoc. cbn [app]. rewrite <- write_lines_cons.
    rewrite readlines_write_lines by (constructor; [apply Hk | exact Hn]).
    apply Forall_map. constructor; [|exact Hb].
    rewrite (strip_written_line h Hk).
    intros E0. rewrite E0 in Hm. revert Hm. apply occurs_in_nil. discriminate.
  - cbn [app]. rewrite (readlines_write_lines _ Hn). now apply Forall_map.
Qed.

(** C9, as the code has it.  The parser emits one record for each line
    after the header line whose trimmed text starts with the info
    marker, and lines that come before the first such line go to no
    record.  A run that completes writes, after the header line, one
    group of lines for each record: its info line, renamed or not, and
    then its content lines; read back, these lines hold as many info
    lines as there are records when the rename string holds no backslash
    and no line terminator.  A run completes when the rename string
    holds no backslash and no surrogate code point. *)
Theorem parser_record_count (content : str) :
  let lines := readlines content in
  List.length (channels_of content)
  = List.length (filter is_info_line (skipn (start_index lines) lines))
  /\ (forall pre rest,
        Forall (fun l => is_info_line l = false) pre ->
        parse_channels (pre ++ rest) = parse_channels rest)
  /\ (forall keywords_str reverse_mode target_channels_str new_name out,
        sort_m3u_urls content keywords_str reverse_mode target_channels_str
          new_name = Done out ->
        exists groups,
          Forall2 (fun ch g =>
                     exists fi,
                       final_inf (parse_targets target_channels_str) new_name ch
                       = Some fi
                       /\ g = fi :: written_urls (parse_keywords keywords_str)
                                      reverse_mode
                                      (parse_targets target_channels_str) ch)
            (channels_of content) groups
          /\ out = header_text content ++ write_lines (List.concat groups)
          /\ (simple_name new_name ->
              List.length (filter is_info_line
                             (readlines (write_lines (List.concat groups))))
              = List.length (channels_of content)))
  /\ (forall keywords_str reverse_mode target_channels_str new_name,
        usable_name new_name ->
        exists out,
          sort_m3u_urls content keywords_str reverse_mode target_channels_str
            new_name = Done out).
Proof.
  intros lines. split; [|split; [|split]].
  - unfold channels_of, parse_channels. fold lines.
    rewrite parse_loop_count. reflexivity.
  - intros pre rest Hpre. unfold parse_channels.
    rewrite fold_left_app.
    destruct (parse_loop_prefix pre [] Hpre) as [us' ->].
    apply parse_loop_orphans.
  - intros ks rev ts nn out H. unfold sort_m3u_urls in H.
    apply write_channels_done in H. destruct H as (groups & HF & ->).
    exists groups. split; [|split; [reflexivity|]].
    + eapply Forall2_impl; [|exact HF]. intros ch g. unfold channel_lines.
      destruct (final_inf (parse_targets ts) nn ch) as [fi|]; [|discriminate].
      intros [= <-]. now exists fi.
    + intros Hs.
      exact (groups_info_lines _ _ _ _ _ _ Hs HF (channels_of_kept content)).
  - intros ks rev ts nn Hu. unfold sort_m3u_urls.
    apply write_channels_usable. now left.
Qed.

(** C9.  The number of info lines written is not always the number of
    records.  For the playlist with one channel and the filter Old: the
    rename string of two lines, the second one an info line, gives a
    completed run whose output has three info lines; the rename string
    with a backslash gives a run that stops before it writes an info
    line. *)
Lemma info_lines_written_counterexample :
  List.length (channels_of Samples.old_playlist) = 1%nat
  /\ (exists out,
        sort_m3u_urls Samples.old_playlist (lit "cdn") false
          (Some (lit "Old")) (Some MoreSamples.two_line_name) = Done out
        /\ List.length (filter is_info_line (readlines out)) = 3%nat)
  /\ (exists partial,
        sort_m3u_urls Samples.old_playlist (lit "cdn") false
          (Some (lit "Old")) (Some (lit "Fox\Sports")) = Failed partial
        /\ List.length (filter is_info_line (readlines partial)) = 0%nat).
Proof.
  split; [vm_compute; reflexivity|].
  split; eexists; (split; [vm_compute; reflexivity|]); vm_compute; reflexivity.
Qed.

(** ** Spaces around the lines of the input never matter *)

Lemma lstrip_suffix (s : str) : exists a, s = a ++ lstrip s.
Proof.
  induction s as [|c t [a IH]]; [now exists []|].
  rewrite lstrip_cons. destruct (isspace c).
  - exists (c :: a). cbn [app]. f_equal. exact IH.
  - now exists [].
Qed.

Lemma rstrip_prefix (s : str) : exists b, s = rstrip s ++ b.
Proof.
  induction s as [|c t [b IH]]; [now exists []|].
  rewrite rstrip_cons. destruct (rstrip t) as [|x r].
  - destruct (isspace c).
    + now exists (c :: t).
    + exists t. reflexivity.
  - exists b. cbn [app]. f_equal. exact IH.
Qed.

Lemma occurs_in_strip_inv (x s : str) : occurs_in x (strip s) -> occurs_in x s.
Proof.
  intros (a & b & E). unfold strip in E.
  destruct (lstrip_suffix s) as [a0 Ha].
  destruct (rstrip_prefix (lstrip s)) as [b0 Hb].
  exists (a0 ++ a), (b ++ b0).
  rewrite Ha at 1. rewrite Hb at 1. rewrite E.
  now rewrite <- !app_assoc.
Qed.

Lemma marker_in_trimmed (l : str) :
  str_in EXTM3U l = str_in EXTM3U (strip l).
Proof.
  destruct (str_in EXTM3U l) eqn:E1, (str_in EXTM3U (strip l)) eqn:E2;
    try reflexivity.
  - apply str_in_occurs, EXTM3U_occurs_in_strip, str_in_occurs in E1.
    congruence.
  - apply str_in_occurs, occurs_in_strip_inv, str_in_occurs in E2.
    congruence.
Qed.

Lemma header_of_trimmed (l1 l2 : list str) :
  map strip l1 = map strip l2 -> header_of l1 = header_of l2.
Proof.
  destruct l1 as [|x l1], l2 as [|y l2]; try discriminate; [reflexivity|].
  cbn [map header_of]. intros [= E _].
  now rewrite (marker_in_trimmed x), (marker_in_trimmed y), E.
Qed.

Lemma parse_loop_trimmed (l1 : list str) :
  forall l2 st,
    map strip l1 = map strip l2 ->
    fold_left parse_step l1 st = fold_left parse_step l2 st.
Proof.
  induction l1 as [|x l1 IH]; intros [|y l2] st E; try discriminate;
    [reflexivity|].
  cbn [map] in E. injection E as Exy E. cbn [fold_left].
  replace (parse_step st y) with (parse_step st x)
    by (unfold parse_step; now rewrite Exy).
  now apply IH.
Qed.

(** Two inputs whose lines are equal once trimmed give the same output:
    spaces before and after a line, and blank lines made of spaces, play
    no part in a run. *)
Theorem surrounding_spaces_ignored (content1 content2 keywords_str : str)
  (reverse_mode : bool) (target_channels_str new_name : option str) :
  map strip (readlines content1) = map strip (readlines content2) ->
  sort_m3u_urls content1 keywords_str reverse_mode target_channels_str new_name
  = sort_m3u_urls content2 keywords_str reverse_mode target_channels_str
      new_name.
Proof.
  intros E. unfold sort_m3u_urls, start_index, parse_channels.
  rewrite (header_of_trimmed _ _ E).
  rewrite (parse_loop_trimmed
             (skipn match header_of (readlines content2) with
                    | Some _ => 1 | None => 0 end (readlines content1))
             (skipn match header_of (readlines content2) with
                    | Some _ => 1 | None => 0 end (readlines content2)));
    [reflexivity|].
  now rewrite <- !skipn_map, E.
Qed.

(** ** The further theorems at sample inputs *)

Lemma lacks_sound (c : char) (s : str) : lacks c s = true -> ~ In c s.
Proof.
  unfold lacks. intros H Hin.
  assert (E : existsb (N.eqb c) s = true).
  { apply existsb_exists. exists c. split; [exact Hin | apply N.eqb_refl]. }
  rewrite E in H. discriminate.
Qed.

Lemma normal_mode_order_witness :
  written_urls Samples.cdn_keywords false None Samples.cnn_channel
  = [lit "http://x/cdn1/b"; lit "http://x/cdn2/a"].
Proof.
  rewrite (normal_mode_order Samples.cdn_keywords None Samples.cnn_channel
             eq_refl).
  reflexivity.
Defined.

Lemma reverse_mode_order_witness :
  written_urls Samples.cdn_keywords true None
    (Channel (lit "#EXTINF:-1,News") Samples.cdn_lines)
  = [lit "http://x/other"; lit "http://x/cdn1/b"; lit "http://x/cdn2/a"].
Proof.
  rewrite (reverse_mode_order Samples.cdn_keywords None
             (Channel (lit "#EXTINF:-1,News") Samples.cdn_lines)).
  - reflexivity.
  - reflexivity.
  - reflexivity.
Defined.

Lemma rename_inf_keeps_marker_witness :
  startswith (Samples.renamed_info (lit "NewName") (lit "NewName")) EXTINF
  = true.
Proof.
  apply (rename_inf_keeps_marker Samples.old_info (lit "NewName")).
  - reflexivity.
  - vm_compute. reflexivity.
Defined.

Ltac on_one_line :=
  unfold no_newline; vm_compute;
  repeat (constructor; [split; discriminate|]); constructor.

Lemma written_records_parse_back_witness :
  channels_of (write_lines (flat_map channel_text [Samples.cnn_channel]))
  = [Samples.cnn_channel].
Proof.
  apply written_records_parse_back.
  - constructor; [|constructor]. split.
    + split; [split; [reflexivity | on_one_line] | reflexivity].
    + constructor; [|constructor; [|constructor]].
      * split; [split; [reflexivity | on_one_line]|].
        split; [discriminate | reflexivity].
      * split; [split; [reflexivity | on_one_line]|].
        split; [discriminate | reflexivity].
  - intros ch rest [= <- _]. apply str_in_not_occurs. reflexivity.
Defined.

Lemma no_info_line_no_output_witness :
  sort_m3u_urls MoreSamples.urls_only (lit "cdn") false None None
  = Done (write_lines [lit "#EXTM3U"]).
Proof.
  rewrite (no_info_line_no_output MoreSamples.urls_only (lit "cdn") false
             None None).
  - reflexivity.
  - vm_compute. repeat constructor.
Defined.

Lemma sorter_completes_witness :
  exists out,
    sort_m3u_urls Samples.old_playlist (lit "cdn") false (Some (lit "Old"))
      (Some (lit "New Name")) = Done out.
Proof.
  apply sorter_completes. left. split.
  - apply lacks_sound. reflexivity.
  - apply can_encode_encodable. reflexivity.
Defined.

Lemma failed_run_output_witness :
  sort_m3u_urls Samples.old_playlist (lit "cdn") false (Some (lit "Old"))
    (Some MoreSamples.surrogate_name)
  = Failed (write_lines [lit "#EXTM3U"])
  /\ exists name,
       Some MoreSamples.surrogate_name = Some name /\ name <> []
       /\ (In BACKSLASH name \/ ~ encodable name).
Proof.
  assert (E : sort_m3u_urls Samples.old_playlist (lit "cdn") false
                (Some (lit "Old")) (Some MoreSamples.surrogate_name)
              = Failed (write_lines [lit "#EXTM3U"]))
    by (vm_compute; reflexivity).
  split; [exact E|].
  destruct (failed_run_output Samples.old_playlist (lit "cdn") false
              (Some (lit "Old")) (Some MoreSamples.surrogate_name)
              (write_lines [lit "#EXTM3U"]) E) as [H _].
  exact H.
Defined.

Lemma missing_directive_added_witness :
  HeaderTool.process_m3u_header MoreSamples.no_directive None None false
  = Some (join [LF] [lit "#EXTM3U"; lit "#EXTINF:-1,A"; lit "http://a/1"]).
Proof.
  rewrite (missing_directive_added MoreSamples.no_directive None None).
  - reflexivity.
  - vm_compute. repeat constructor.
Defined.

Lemma output_has_directive_witness :
  exists l, In l MoreSamples.two_directives_lines /\ is_directive l = true.
Proof.
  apply (output_has_directive Samples.two_directives None None).
  vm_compute. reflexivity.
Defined.

Lemma replace_needs_a_value_witness :
  HeaderTool.process_m3u_header Samples.two_directives (Some (lit "a\b")) None
    false
  = HeaderTool.process_m3u_header Samples.two_directives None None false.
Proof.
  apply replace_needs_a_value.
  vm_compute. repeat constructor.
Defined.

Lemma force_sets_value_witness :
  exists out,
    HeaderTool.processed_lines Samples.two_directives None (Some (lit "u"))
      false = Some out
    /\ Forall (fun l => is_directive l = true ->
                        Re.search HeaderTool.X_TVG_URL l = Some (lit "u")) out.
Proof.
  apply force_sets_value.
  - apply lacks_sound. reflexivity.
  - apply lacks_sound. reflexivity.
  - repeat constructor; intros _ _; apply str_in_not_occurs; reflexivity.
Defined.

Lemma header_tool_second_pass_witness :
  HeaderTool.process_m3u_header
    (join [LF] MoreSamples.two_directives_lines) None None false
  = Some (join [LF] MoreSamples.two_directives_lines).
Proof.
  apply (header_tool_second_pass Samples.two_directives false).
  - vm_compute. reflexivity.
  - reflexivity.
Defined.

Lemma lines_keep_their_place_witness :
  exists body,
    (MoreSamples.two_directives_lines = body
     \/ exists d, is_directive d = true
                  /\ MoreSamples.two_directives_lines = d :: body)
    /\ Forall2 (fun raw l => if is_directive (rstrip raw)
                             then is_directive l = true
                             else l = rstrip raw)
         (splitlines Samples.two_directives) body.
Proof.
  apply (lines_keep_their_place Samples.two_directives None None).
  vm_compute. reflexivity.
Defined.

Lemma replace_sets_value_witness :
  exists l,
    HeaderTool.process_line (Some (lit "new")) None false
      MoreSamples.directive_with_value = Some [l]
    /\ is_directive l = true
    /\ Re.search HeaderTool.X_TVG_URL l = Some (lit "new").
Proof.
  apply (replace_sets_value (lit "new") MoreSamples.directive_with_value
           (lit "old")).
  - apply lacks_sound. reflexivity.
  - apply lacks_sound. reflexivity.
  - reflexivity.
  - vm_compute. reflexivity.
  - vm_compute. discriminate.
Defined.

Lemma rename_inf_no_attribute_witness :
  rename_inf (lit "#EXTINF:-1,Old") (lit "A\B") = Some (lit "#EXTINF:-1,A\B").
Proof.
  destruct (rename_inf_no_attribute (lit "#EXTINF:-1,Old") (lit "A\B"))
    as [H _].
  - apply str_in_not_occurs. reflexivity.
  - apply (H (lit "#EXTINF:-1") (lit "Old")).
    + reflexivity.
    + apply lacks_sound. reflexivity.
Defined.

Lemma rename_inf_plain_attribute_witness :
  rename_inf Samples.old_info (lit "NewName")
  = Some (Samples.renamed_info (lit "NewName") (lit "NewName")).
Proof.
  destruct (rename_inf_plain_attribute (lit "#EXTINF:-1 ") (lit "Old")
              (lit ",Old Channel") (lit "NewName")) as [H _].
  - apply lacks_sound. reflexivity.
  - apply lacks_sound. reflexivity.
  - apply lacks_sound. reflexivity.
  - apply str_in_not_occurs. reflexivity.
  - apply (H (lit "#EXTINF:-1 tvg-name=" ++ [QUOTE] ++ lit "NewName" ++ [QUOTE])
             (lit "Old Channel")).
    + reflexivity.
    + apply lacks_sound. reflexivity.
Defined.

Lemma surrounding_spaces_ignored_witness :
  sort_m3u_urls Samples.playlist (lit "cdn1,cdn2") false None None
  = sort_m3u_urls MoreSamples.indented_playlist (lit "cdn1,cdn2") false None
      None.
Proof.
  apply surrounding_spaces_ignored. vm_compute. reflexivity.
Defined.

Lemma csv_arguments_clean_witness :
  Forall clean_item (parse_keywords (lit " cdn1 ,, cdn2,")).
Proof.
  destruct (csv_arguments_clean (lit " cdn1 ,, cdn2,") None) as [H _].
  exact H.
Defined.

Lemma no_blank_line_written_witness :
  Forall (fun l => strip l <> [])
    (readlines
       (written (sort_m3u_urls Samples.blank_first_playlist (lit "cdn") false
                   (Some (lit "A")) (Some (lit "New Name"))))).
Proof.
  apply no_blank_line_written.
  split; [apply lacks_sound; reflexivity | on_one_line].
Defined.

Lemma parser_record_count_witness :
  List.length (channels_of Samples.old_playlist) = 1%nat
  /\ parse_channels ([lit "http://stray"] ++ readlines Samples.old_playlist)
     = parse_channels (readlines Samples.old_playlist)
  /\ exists out groups,
       sort_m3u_urls Samples.old_playlist (lit "cdn") false
         (Some (lit "Old")) (Some (lit "New Name")) = Done out
       /\ out = header_text Samples.old_playlist
                ++ write_lines (List.concat groups)
       /\ List.length (filter is_info_line
                         (readlines (write_lines (List.concat groups))))
          = 1%nat.
Proof.
  destruct (parser_record_count Samples.old_playlist)
    as (Hcount & Hpre & Hrun & Hdone).
  split; [rewrite Hcount; reflexivity|].
  split; [apply Hpre; constructor; [reflexivity | constructor]|].
  assert (Hu : usable_name (Some (lit "New Name"))).
  { split; [apply lacks_sound | apply can_encode_encodable]; reflexivity. }
  destruct (Hdone (lit "cdn") false (Some (lit "Old")) (Some (lit "New Name"))
              Hu) as [out E].
  destruct (Hrun _ _ _ _ _ E) as (groups & _ & Ho & Hc).
  exists out, groups. split; [exact E|]. split; [exact Ho|].
  rewrite Hc; [reflexivity|].
  split; [apply lacks_sound; reflexivity | on_one_line].
Defined.
